(** * The batching pipeline of [examples/image_matching.py]

    A shallow embedding of lines 61-103 of [extract_deep_features]: the
    computation of [loop_num], the worker thread [_worker], the unbounded
    FIFO [Queue] shared by the two threads, the enqueue loop, the poison
    pill, the join and the final [np.concatenate].

    The module is Python 3 (it imports [queue]).  Integers are Python
    integers ([Z]); floats are binary64 values ([spec_float], precision 53,
    round to nearest even), so that lines 64 and 66 round where Python
    rounds and raise where Python raises.  The input array is the list of
    its rows along axis 0, the only axis the code slices.  An array that
    [sess.run] returns carries the shape of its rows, which
    [np.concatenate] compares; the TensorFlow session call is an opaque
    function that may raise. *)

From Stdlib Require Import ZArith List Lia Bool Arith SpecFloat.
Import ListNotations.
Open Scope Z_scope.

(** ** Python values and exceptions *)

Inductive exn : Type :=
| ZeroDivisionError   (* [num_patch % 0] *)
| ValueError          (* [np.concatenate] *)
| OverflowError.      (* an integer or a quotient too large for a float *)

Inductive result (A : Type) : Type :=
| Returned (a : A)
| Raised (e : exn).
Arguments Returned {A} a.
Arguments Raised {A} e.

(** Sequencing: an exception ends the evaluation. *)
Definition bind {A B : Type} (r : result A) (k : A -> result B) : result B :=
  match r with
  | Returned a => k a
  | Raised e => Raised e
  end.

(** [a % b] on Python integers: the sign of the divisor, like [Z.modulo]. *)
Definition py_mod (a b : Z) : result Z :=
  if b =? 0 then Raised ZeroDivisionError else Returned (a mod b).

(** [range(n)] *)
Definition py_range (n : Z) : list Z :=
  map Z.of_nat (seq 0 (Z.to_nat n)).

(** A slice bound is clamped into [0, len]; a negative one counts from
    the end. *)
Definition clamp_index (len i : Z) : Z :=
  if i <? 0 then Z.max 0 (i + len) else Z.min i len.

(** [a[lo:hi]] and [a[lo:]] (with [hi = None]) along axis 0. *)
Definition py_slice {A : Type} (a : list A) (lo : Z) (hi : option Z) : list A :=
  let len := Z.of_nat (length a) in
  let start := clamp_index len lo in
  let stop := match hi with Some h => clamp_index len h | None => len end in
  firstn (Z.to_nat (stop - start)) (skipn (Z.to_nat start) a).

(** ** Arrays returned by [sess.run] *)

(** An array of one or more dimensions is the list of its rows along
    axis 0 together with [dims], the shape of one row (the shape of the
    array without its first entry); [Scalar] is a zero-dimensional
    array. *)
Inductive ndarray (A : Type) : Type :=
| Scalar (a : A)
| Array (dims : list Z) (rows : list A).
Arguments Scalar {A} a.
Arguments Array {A} dims rows.

Fixpoint same_dims (d1 d2 : list Z) : bool :=
  match d1, d2 with
  | [], [] => true
  | x :: r1, y :: r2 => (x =? y) && same_dims r1 r2
  | _, _ => false
  end.

(** The rows of [arrays] one after the other, when each array has one
    or more dimensions and rows of shape [dims]. *)
Fixpoint concat_rows {A : Type} (dims : list Z) (arrays : list (ndarray A))
  : option (list A) :=
  match arrays with
  | [] => Some []
  | Scalar _ :: _ => None
  | Array d r :: rest =>
      if same_dims d dims
      then match concat_rows dims rest with
           | Some rs => Some (r ++ rs)
           | None => None
           end
      else None
  end.

(** [np.concatenate(arrays, axis=0)]: numpy raises ValueError on an empty
    sequence, on a zero-dimensional array, and when the arrays differ in
    their number of dimensions or in a dimension other than the first. *)
Definition np_concatenate {A : Type} (arrays : list (ndarray A))
  : result (ndarray A) :=
  match arrays with
  | [] => Raised ValueError
  | Scalar _ :: _ => Raised ValueError
  | Array dims _ :: _ =>
      match concat_rows dims arrays with
      | Some rows => Returned (Array dims rows)
      | None => Raised ValueError
      end
  end.

(** ** Floats *)

Definition prec : Z := 53.
Definition emax : Z := 1024.

(** A conversion or an integer division whose result is too large
    raises. *)
Definition finite_or_overflow (x : spec_float) : result spec_float :=
  match x with
  | S754_infinity _ => Raised OverflowError
  | _ => Returned x
  end.

(** [float(n)]: the nearest float. *)
Definition float_of_int (n : Z) : result spec_float :=
  finite_or_overflow (binary_normalize prec emax n 0 false).

(** [n / b] on two integers: the float nearest to the quotient. *)
Definition int_true_div (n b : Z) : result spec_float :=
  if b =? 0 then Raised ZeroDivisionError else
  let s := xorb (n <? 0) (b <? 0) in
  match n with
  | Z0 => Returned (S754_zero s)
  | _ =>
      let '(mz, ez, lz) :=
        SFdiv_core_binary prec emax (Z.abs n) 0 (Z.abs b) 0 in
      finite_or_overflow (binary_round_aux prec emax s mz ez lz)
  end.

Definition is_zero (x : spec_float) : bool :=
  match x with
  | S754_zero _ => true
  | _ => false
  end.

(** [x / y] on two floats: an infinite quotient is returned as it is. *)
Definition float_div (x y : spec_float) : result spec_float :=
  if is_zero y then Raised ZeroDivisionError
  else Returned (SFdiv prec emax x y).

(** [x - y] on two floats. *)
Definition float_sub (x y : spec_float) : spec_float := SFsub prec emax x y.

Definition cond_neg (s : bool) (z : Z) : Z := if s then - z else z.

(** [int(np.floor(x))] *)
Definition int_of_floor (x : spec_float) : result Z :=
  match x with
  | S754_zero _ => Returned 0
  | S754_finite s m e =>
      Returned (if e <? 0 then cond_neg s (Z.pos m) / 2 ^ (- e)
                else cond_neg s (Z.pos m) * 2 ^ e)
  | S754_infinity _ => Raised OverflowError
  | S754_nan => Raised ValueError
  end.

(** [int(x)]: truncation towards zero. *)
Definition int_of_float (x : spec_float) : result Z :=
  match x with
  | S754_zero _ => Returned 0
  | S754_finite s m e =>
      Returned (if e <? 0 then Z.quot (cond_neg s (Z.pos m)) (2 ^ (- e))
                else cond_neg s (Z.pos m) * 2 ^ e)
  | S754_infinity _ => Raised OverflowError
  | S754_nan => Raised ValueError
  end.

(** ** Lines 63-66: the number of full-size batches *)

(** [int(np.floor(float(num_patch) / float(batch_size)))] when the
    remainder is positive, else [int(num_patch / batch_size - 1)], where
    the [1] is converted to a float for the subtraction. *)
Definition loop_num (num_patch batch_size : Z) : result Z :=
  bind (py_mod num_patch batch_size) (fun r =>
  if r >? 0 then
    bind (float_of_int num_patch) (fun x =>
    bind (float_of_int batch_size) (fun y =>
    bind (float_div x y) int_of_floor))
  else
    bind (int_true_div num_patch batch_size) (fun q =>
    bind (float_of_int 1) (fun one =>
    int_of_float (float_sub q one)))).
Arguments loop_num : simpl never.

(** ** Lines 87-91: what iteration [i] of the enqueue loop puts *)

Definition loop_slice {A : Type} (all_patches : list A) (batch_size ln i : Z)
  : list A :=
  if i <? ln
  then py_slice all_patches (i * batch_size) (Some ((i + 1) * batch_size))
  else py_slice all_patches (i * batch_size) None.

(** All the batches of the loop, in the order of [range(loop_num + 1)]. *)
Definition loop_batches {A : Type} (all_patches : list A) (batch_size ln : Z)
  : list (list A) :=
  map (loop_slice all_patches batch_size ln) (py_range (ln + 1)).

(** The batch-splitting step as a whole: [loop_num] then the loop. *)
Definition split_batches {A : Type} (all_patches : list A) (batch_size : Z)
  : result (list (list A)) :=
  match loop_num (Z.of_nat (length all_patches)) batch_size with
  | Raised e => Raised e
  | Returned ln => Returned (loop_batches all_patches batch_size ln)
  end.

(** ** The BatchSplitter of the specification

    Written from the words of the specification, to be compared with the
    code: [ceil (N / batch_size)] batches, each of size [batch_size] except
    the last, whose size is [N mod batch_size], or [batch_size] when [N] is
    an exact multiple; contiguous and in order. *)

Definition ceil_div (n b : Z) : Z := (n + b - 1) / b.

Definition spec_batch_size (n b k : Z) : Z :=
  if k <? ceil_div n b - 1 then b
  else if n mod b =? 0 then b else n mod b.

Definition BatchSplitter_spec {A : Type} (items : list A) (batch_size : Z)
  : list (list A) :=
  let n := Z.of_nat (length items) in
  map (fun k => firstn (Z.to_nat (spec_batch_size n batch_size k))
                       (skipn (Z.to_nat (k * batch_size)) items))
      (py_range (ceil_div n batch_size)).

(** ** The shared queue

    [queue.Queue]: FIFO, [put] blocks only when [maxsize > 0] and the queue
    holds [maxsize] elements, [get] blocks while the queue is empty.  A
    blocked call is a step that is not enabled ([None]).  An element is a
    Python value: a batch of patches, or Python's [None]. *)

Section Pipeline.

Context {Item Feat : Type}.

(** [sess.run("squeeze_1:0", ...)] on one batch; [None] when it raises. *)
Variable infer : list Item -> option (ndarray Feat).

(** Line 102 on one row: [(x * 128 + 128).astype(np.uint8)]. *)
Variable quantize : Feat -> Feat.

(** The arguments of the call: [all_patches] (line 57),
    [FLAGS.batch_size] and [qtz]. *)
Variable all_patches : list Item.
Variable batch_size : Z.
Variable qtz : bool.

Definition qelem : Type := option (list Item).

Record Queue : Type := mkQueue {
  maxsize : Z;
  contents : list qelem
}.

(** [Queue()] *)
Definition new_queue : Queue := {| maxsize := 0; contents := [] |}.

Definition is_full (q : Queue) : bool :=
  (0 <? maxsize q) && (maxsize q <=? Z.of_nat (length (contents q))).

Definition put (q : Queue) (x : qelem) : option Queue :=
  if is_full q then None
  else Some {| maxsize := maxsize q; contents := contents q ++ [x] |}.

Definition get (q : Queue) : option (qelem * Queue) :=
  match contents q with
  | [] => None
  | x :: rest => Some (x, {| maxsize := maxsize q; contents := rest |})
  end.

(** ** The two threads *)

(** Where the calling thread stands. *)
Inductive main_pc : Type :=
| MInit                              (* lines 61-66 *)
| MSetup (ln : Z)                    (* lines 78-82 *)
| MLoop (ln : Z) (todo : list Z)     (* lines 87-91, then 93 when [todo] is empty *)
| MJoin                              (* line 95 *)
| MConcat                            (* lines 100-103 *)
| MDone (o : result (ndarray Feat)). (* the call has returned or raised *)

(** Where [_worker] stands. *)
Inductive worker_pc : Type :=
| WGet                               (* line 71 *)
| WGot (patch_data : qelem)          (* lines 72-76 *)
| WReturned                          (* line 73 *)
| WRaised.                           (* [sess.run] raised: the thread is dead *)

(** The store the two threads share.  [puts], [gets] and [runs] are
    histories: every element put, every element got, every batch handed
    to [sess.run], oldest first. *)
Record state : Type := mkState {
  main : main_pc;
  patch_queue : option Queue;          (* [None] before line 79 *)
  worker_thread : option worker_pc;    (* [None] before line 82 *)
  all_feat : list (ndarray Feat);
  puts : list qelem;
  gets : list qelem;
  runs : list (list Item)
}.

Definition init : state :=
  {| main := MInit; patch_queue := None; worker_thread := None;
     all_feat := []; puts := []; gets := []; runs := [] |}.

Definition set_main (pc : main_pc) (s : state) : state :=
  {| main := pc; patch_queue := patch_queue s;
     worker_thread := worker_thread s; all_feat := all_feat s;
     puts := puts s; gets := gets s; runs := runs s |}.

Definition set_worker (pc : worker_pc) (s : state) : state :=
  {| main := main s; patch_queue := patch_queue s;
     worker_thread := Some pc; all_feat := all_feat s;
     puts := puts s; gets := gets s; runs := runs s |}.

(** [patch_queue.put(x)] by the calling thread, which moves on to [pc]. *)
Definition main_put (x : qelem) (pc : main_pc) (s : state) : option state :=
  match patch_queue s with
  | None => None
  | Some q =>
      match put q x with
      | None => None
      | Some q' =>
          Some {| main := pc; patch_queue := Some q';
                  worker_thread := worker_thread s; all_feat := all_feat s;
                  puts := puts s ++ [x]; gets := gets s; runs := runs s |}
      end
  end.

(** Line 102 on an array: elementwise, the shape is kept. *)
Definition quantize_array (a : ndarray Feat) : ndarray Feat :=
  match a with
  | Scalar x => Scalar (quantize x)
  | Array dims rows => Array dims (map quantize rows)
  end.

(** Lines 100-102. *)
Definition finish (feats : list (ndarray Feat)) : result (ndarray Feat) :=
  match np_concatenate feats with
  | Raised e => Raised e
  | Returned a => Returned (if qtz then quantize_array a else a)
  end.

(** One step of the calling thread.  The timing and printing lines and
    the [daemon] flag of line 81 do not touch the store. *)
Definition main_step (s : state) : option state :=
  match main s with
  | MInit =>
      match loop_num (Z.of_nat (length all_patches)) batch_size with
      | Raised e => Some (set_main (MDone (Raised e)) s)
      | Returned ln => Some (set_main (MSetup ln) s)
      end
  | MSetup ln =>
      Some {| main := MLoop ln (py_range (ln + 1));
              patch_queue := Some new_queue;
              worker_thread := Some WGet;
              all_feat := [];
              puts := puts s; gets := gets s; runs := runs s |}
  | MLoop ln (i :: todo) =>
      main_put (Some (loop_slice all_patches batch_size ln i)) (MLoop ln todo) s
  | MLoop ln [] =>
      main_put None MJoin s
  | MJoin =>
      match worker_thread s with
      | Some WReturned | Some WRaised => Some (set_main MConcat s)
      | _ => None
      end
  | MConcat => Some (set_main (MDone (finish (all_feat s))) s)
  | MDone _ => None
  end.

(** One step of [_worker].  [task_done] (line 76) only lowers the queue's
    count of unfinished tasks, which nothing reads (there is no
    [patch_queue.join()]), so it leaves the store as it is.  An exception
    of [sess.run] is not caught: it ends the thread, and [Thread.join]
    (line 95) returns for a thread that has ended either way. *)
Definition worker_step (s : state) : option state :=
  match worker_thread s with
  | Some WGet =>
      match patch_queue s with
      | None => None
      | Some q =>
          match get q with
          | None => None
          | Some (x, q') =>
              Some {| main := main s; patch_queue := Some q';
                      worker_thread := Some (WGot x); all_feat := all_feat s;
                      puts := puts s; gets := gets s ++ [x]; runs := runs s |}
          end
      end
  | Some (WGot None) => Some (set_worker WReturned s)
  | Some (WGot (Some patch_data)) =>
      match infer patch_data with
      | None =>
          Some {| main := main s; patch_queue := patch_queue s;
                  worker_thread := Some WRaised; all_feat := all_feat s;
                  puts := puts s; gets := gets s;
                  runs := runs s ++ [patch_data] |}
      | Some feat =>
          Some {| main := main s; patch_queue := patch_queue s;
                  worker_thread := Some WGet;
                  all_feat := all_feat s ++ [feat];
                  puts := puts s; gets := gets s;
                  runs := runs s ++ [patch_data] |}
      end
  | Some WReturned | Some WRaised | None => None
  end.

(** ** Interleavings *)

Inductive thread : Type := Main | Worker.

Definition thread_step (t : thread) (s : state) : option state :=
  match t with
  | Main => main_step s
  | Worker => worker_step s
  end.

(** A schedule names the thread that takes each step; it is refused
    ([None]) when it names a thread that is blocked or has ended. *)
Fixpoint run (sched : list thread) (s : state) : option state :=
  match sched with
  | [] => Some s
  | t :: rest =>
      match thread_step t s with
      | Some s' => run rest s'
      | None => None
      end
  end.

Definition outcome (s : state) : option (result (ndarray Feat)) :=
  match main s with
  | MDone o => Some o
  | _ => None
  end.

Definition is_done (s : state) : bool :=
  match main s with
  | MDone _ => true
  | _ => false
  end.

(** The state a schedule leads to from [init] ([init] itself when the
    schedule is refused). *)
Definition state_after (sched : list thread) : state :=
  match run sched init with
  | Some s => s
  | None => init
  end.

(** One scheduler: the worker whenever it can move, else the caller. *)
Fixpoint exec (fuel : nat) (s : state) : state :=
  match fuel with
  | O => s
  | S fuel' =>
      match worker_step s with
      | Some s' => exec fuel' s'
      | None =>
          match main_step s with
          | Some s' => exec fuel' s'
          | None => s
          end
      end
  end.

(** A bound on the number of steps still ahead of a state. *)
Definition main_weight (pc : main_pc) : nat :=
  match pc with
  | MInit =>
      match loop_num (Z.of_nat (length all_patches)) batch_size with
      | Raised _ => 1
      | Returned ln => 7 + 3 * Z.to_nat (ln + 1)
      end%nat
  | MSetup ln => (6 + 3 * Z.to_nat (ln + 1))%nat
  | MLoop _ todo => (5 + 3 * length todo)%nat
  | MJoin => 2%nat
  | MConcat => 1%nat
  | MDone _ => 0%nat
  end.

Definition worker_weight (w : option worker_pc) : nat :=
  match w with
  | Some (WGot _) => 1%nat
  | _ => 0%nat
  end.

Definition queue_weight (q : option Queue) : nat :=
  match q with
  | Some q => (2 * length (contents q))%nat
  | None => 0%nat
  end.

Definition measure (s : state) : nat :=
  (main_weight (main s) + queue_weight (patch_queue s)
   + worker_weight (worker_thread s))%nat.

(** The call, run under the scheduler [exec]; [None] would mean that
    the run has not finished. *)
Definition extract_deep_features : option (result (ndarray Feat)) :=
  outcome (exec (measure init) init).

(** The features in [all_feat] once the worker has ended: those of the
    batches before the first one on which [sess.run] raises. *)
Fixpoint feats_before_failure (bs : list (list Item)) : list (ndarray Feat) :=
  match bs with
  | [] => []
  | b :: rest =>
      match infer b with
      | Some feat => feat :: feats_before_failure rest
      | None => []
      end
  end.

(** The batches the worker takes from the queue: all of them, or those
    up to and including the first one on which [sess.run] raises. *)
Fixpoint batches_consumed (bs : list (list Item)) : list (list Item) :=
  match bs with
  | [] => []
  | b :: rest =>
      match infer b with
      | Some _ => b :: batches_consumed rest
      | None => [b]
      end
  end.

Definition all_succeed (bs : list (list Item)) : bool :=
  forallb (fun b => match infer b with Some _ => true | None => false end) bs.

(** ** What every reachable state satisfies *)

(** Everything the caller puts in one run: the batches, then [None]. *)
Definition sentinel_stream (bs : list (list Item)) : list qelem :=
  map Some bs ++ [None].

(** The outcome of the call as a function of its arguments. *)
Definition pipeline_outcome : result (ndarray Feat) :=
  match loop_num (Z.of_nat (length all_patches)) batch_size with
  | Raised e => Raised e
  | Returned ln =>
      finish (feats_before_failure (loop_batches all_patches batch_size ln))
  end.

(** The worker's position against the histories: it has run [sess.run]
    with success on the batches [cons], whose features are in
    [all_feat], and holds or has just dealt with one more element. *)
Definition worker_inv (w : worker_pc) (s : state) : Prop :=
  exists cons : list (list Item),
    all_succeed cons = true /\
    all_feat s = feats_before_failure cons /\
    match w with
    | WGet => gets s = map Some cons /\ runs s = cons
    | WGot x => gets s = map Some cons ++ [x] /\ runs s = cons
    | WReturned => gets s = map Some cons ++ [None] /\ runs s = cons
    | WRaised =>
        exists b, infer b = None /\
                  gets s = map Some cons ++ [Some b] /\
                  runs s = cons ++ [b]
    end.

(** The caller's position against the history of puts. *)
Definition main_inv (ln : Z) (w : worker_pc) (s : state) : Prop :=
  let stream := sentinel_stream (loop_batches all_patches batch_size ln) in
  match main s with
  | MInit | MSetup _ => False
  | MLoop ln' todo =>
      ln' = ln /\
      exists done,
        py_range (ln + 1) = done ++ todo /\
        puts s = map Some (map (loop_slice all_patches batch_size ln) done)
  | MJoin => puts s = stream
  | MConcat => puts s = stream /\ (w = WReturned \/ w = WRaised)
  | MDone o =>
      puts s = stream /\ (w = WReturned \/ w = WRaised) /\
      o = finish (all_feat s)
  end.

(** After line 82: the queue is the unbounded one and holds what was
    put and not yet got, in order. *)
Definition live_inv (ln : Z) (s : state) : Prop :=
  exists w qs,
    patch_queue s = Some {| maxsize := 0; contents := qs |} /\
    worker_thread s = Some w /\
    puts s = gets s ++ qs /\
    main_inv ln w s /\
    worker_inv w s.

Definition Inv (s : state) : Prop :=
  match loop_num (Z.of_nat (length all_patches)) batch_size with
  | Raised e => s = init \/ s = set_main (MDone (Raised e)) init
  | Returned ln =>
      s = init \/ s = set_main (MSetup ln) init \/ live_inv ln s
  end.

(** Past the join, when every batch went through [sess.run]. *)
Definition ended_well (ln : Z) (s : state) : Prop :=
  all_succeed (loop_batches all_patches batch_size ln) = true /\
  patch_queue s = Some {| maxsize := 0; contents := [] |} /\
  worker_thread s = Some WReturned /\
  puts s = sentinel_stream (loop_batches all_patches batch_size ln) /\
  gets s = sentinel_stream (loop_batches all_patches batch_size ln) /\
  runs s = loop_batches all_patches batch_size ln /\
  all_feat s = feats_before_failure (loop_batches all_patches batch_size ln).

(** Past the join, when [sess.run] raised on batch [b]. *)
Definition ended_dead (ln : Z) (s : state) : Prop :=
  exists cons b rest,
    loop_batches all_patches batch_size ln = cons ++ b :: rest /\
    all_succeed cons = true /\ infer b = None /\
    patch_queue s = Some {| maxsize := 0; contents := sentinel_stream rest |} /\
    worker_thread s = Some WRaised /\
    puts s = sentinel_stream (loop_batches all_patches batch_size ln) /\
    gets s = map Some (cons ++ [b]) /\
    runs s = cons ++ [b] /\
    all_feat s = feats_before_failure cons.

End Pipeline.

(** ** Concrete inputs *)

Definition five_patches : list Z := [1; 2; 3; 4; 5].

Definition ten_patches : list Z := [1; 2; 3; 4; 5; 6; 7; 8; 9; 10].

(** An inference that always succeeds, one feature per patch, in a
    one-dimensional array. *)
Definition double_each (b : list Z) : option (ndarray Z) :=
  Some (Array [] (map (Z.mul 2) b)).

(** An inference that raises on every batch that holds patch 5. *)
Definition fails_on_five (b : list Z) : option (ndarray Z) :=
  if existsb (Z.eqb 5) b then None else Some (Array [] (map (Z.mul 2) b)).

(** Line 102 on integer stand-ins for features. *)
Definition quantize_z (x : Z) : Z := (x * 128 + 128) mod 256.

(** ** Concrete schedules *)

(** Three batches, the worker taking each element as soon as it is put. *)
Definition sched_three_batches : list thread :=
  [Main; Main;
   Main; Worker; Worker;
   Main; Worker; Worker;
   Main; Worker; Worker;
   Main; Worker; Worker;
   Main; Main].

(** Three batches, [sess.run] raising on the third. *)
Definition sched_third_fails : list thread :=
  [Main; Main;
   Main; Worker; Worker;
   Main; Worker; Worker;
   Main; Worker; Worker;
   Main; Main; Main].

(** No batch: the poison pill alone. *)
Definition sched_no_batch : list thread :=
  [Main; Main; Main; Worker; Worker; Main; Main].

(** Up to the second put of the loop, the worker not yet scheduled. *)
Definition sched_two_puts : list thread :=
  [Main; Main; Main; Main].

(** Three batches, the caller putting everything before the worker is
    first scheduled. *)
Definition sched_producer_first : list thread :=
  [Main; Main;
   Main; Main; Main; Main;
   Worker; Worker; Worker; Worker; Worker; Worker; Worker; Worker;
   Main; Main].

(** ** Relations used in the proofs about rounding *)

(** Where the exact value [M / D] lies against the integer [m]:
    [M = m * D + R] with the remainder [R] placed by the location. *)
Definition loc_rel (l : location) (R D : Z) : Prop :=
  match l with
  | loc_Exact => R = 0
  | loc_Inexact Lt => 0 < 2 * R < D
  | loc_Inexact Eq => 2 * R = D
  | loc_Inexact Gt => D < 2 * R
  end.

Definition loc_ok (mrs : shr_record) (M D : Z) : Prop :=
  0 <= shr_m mrs /\
  exists R, M = shr_m mrs * D + R /\ 0 <= R < D /\
            loc_rel (loc_of_shr_record mrs) R D.

(** * Properties *)

(** ** Binary64 rounding *)

Lemma digits2_size (p : positive) : digits2_pos p = Pos.size p.
Proof. induction p; cbn; congruence. Qed.

Lemma Zdigits2_bounds (m : Z) :
  0 < m -> 2 ^ (Zdigits2 m - 1) <= m < 2 ^ Zdigits2 m.
Proof.
  destruct m as [|p|p]; try lia. intros _. cbn [Zdigits2].
  rewrite digits2_size.
  pose proof (Pos.size_gt p) as Hgt. pose proof (Pos.size_le p) as Hle.
  apply Pos2Z.pos_lt_pos in Hgt. apply Pos2Z.pos_le_pos in Hle.
  rewrite Pos2Z.inj_pow in Hgt, Hle. rewrite (Pos2Z.inj_xO p) in Hle.
  assert (Hs : 2 ^ Z.pos (Pos.size p) = 2 * 2 ^ (Z.pos (Pos.size p) - 1)).
  { rewrite <- Z.pow_succ_r by lia. f_equal. lia. }
  lia.
Qed.

Lemma pow2_pos (k : Z) : 0 <= k -> 0 < 2 ^ k.
Proof. intros. apply Z.pow_pos_nonneg; lia. Qed.

Lemma pow2_lt_inv (a b : Z) : 0 <= b -> 2 ^ a < 2 ^ b -> a < b.
Proof.
  intros Hb H. destruct (Z.lt_ge_cases a b) as [|Hge]; [assumption|].
  apply (Z.pow_le_mono_r 2) in Hge; lia.
Qed.

Lemma Zdigits2_unique (m d : Z) :
  2 ^ (d - 1) <= m < 2 ^ d -> 1 <= d -> Zdigits2 m = d.
Proof.
  intros [Hlo Hhi] Hd.
  assert (Hm : 0 < m) by (pose proof (pow2_pos (d - 1)); lia).
  pose proof (Zdigits2_bounds m Hm) as [Hl Hh].
  assert (1 <= Zdigits2 m) by (destruct m; cbn; lia).
  assert (Zdigits2 m - 1 < d) by (apply pow2_lt_inv; lia).
  assert (d - 1 < Zdigits2 m) by (apply pow2_lt_inv; lia).
  lia.
Qed.

Lemma Zdigits2_ge1 (m : Z) : 0 < m -> 1 <= Zdigits2 m.
Proof. destruct m; cbn; lia. Qed.

Lemma iter_pos_iter {A : Type} (f : A -> A) (p : positive) (x : A) :
  iter_pos f p x = Pos.iter f x p.
Proof.
  revert x. induction p as [p IH|p IH|]; intros x; cbn.
  - rewrite !IH. now rewrite !Pos.iter_swap.
  - now rewrite !IH.
  - reflexivity.
Qed.

Lemma iter_xO (m d : positive) :
  Z.pos (Pos.iter xO m d) = Z.pos m * 2 ^ Z.pos d.
Proof.
  induction d as [|d IH] using Pos.peano_ind.
  - cbn. lia.
  - rewrite Pos.iter_succ, Pos2Z.inj_xO, IH, Pos2Z.inj_succ.
    rewrite Z.pow_succ_r by lia. lia.
Qed.

Lemma loc_ok_init (m : Z) (l : location) (M D R : Z) :
  0 <= m -> M = m * D + R -> 0 <= R < D -> loc_rel l R D ->
  loc_ok (shr_record_of_loc m l) M D.
Proof.
  intros Hm HM HR Hl. split.
  - destruct l as [|[| |]]; exact Hm.
  - exists R. destruct l as [|[| |]]; auto.
Qed.

Lemma shr_1_ok (mrs : shr_record) (M D : Z) :
  0 < D -> loc_ok mrs M D -> loc_ok (shr_1 mrs) M (D * 2).
Proof.
  intros HD [Hm (R & HM & HR & Hl)].
  destruct mrs as [m r s].
  cbv [shr_m shr_r shr_s loc_of_shr_record loc_rel] in Hm, HM, Hl.
  unfold loc_ok.
  destruct m as [|[p|p|]|p]; try lia;
    destruct r, s;
    cbv [shr_1 shr_m shr_r shr_s loc_of_shr_record loc_rel orb];
    (split; [lia|]);
    first [ solve [exists R; repeat split; lia]
          | solve [exists (R + D); repeat split; lia] ].
Qed.

Lemma iter_shr_1_ok (p : positive) (mrs : shr_record) (M D : Z) :
  0 < D -> loc_ok mrs M D ->
  loc_ok (iter_pos shr_1 p mrs) M (D * 2 ^ Z.pos p).
Proof.
  intros HD H. rewrite iter_pos_iter.
  induction p as [|p IH] using Pos.peano_ind.
  - cbn. replace (D * 2 ^ 1) with (D * 2) by lia. now apply shr_1_ok.
  - rewrite Pos.iter_succ, Pos2Z.inj_succ, Z.pow_succ_r by lia.
    replace (D * (2 * 2 ^ Z.pos p)) with (D * 2 ^ Z.pos p * 2) by lia.
    apply shr_1_ok; [|assumption].
    pose proof (pow2_pos (Z.pos p)). nia.
Qed.

Lemma shr_ok (mrs : shr_record) (e n M D : Z) :
  0 < D -> 0 <= n -> loc_ok mrs M D ->
  loc_ok (fst (shr mrs e n)) M (D * 2 ^ n) /\ snd (shr mrs e n) = e + n.
Proof.
  intros HD Hn H. destruct n as [|p|p]; try lia; cbn [shr fst snd].
  - split; [|lia]. now replace (D * 2 ^ 0) with D by lia.
  - split; [|reflexivity]. now apply iter_shr_1_ok.
Qed.

Lemma loc_ok_div (mrs : shr_record) (M D : Z) :
  0 < D -> loc_ok mrs M D ->
  shr_m mrs = M / D /\
  loc_rel (loc_of_shr_record mrs) (M mod D) D.
Proof.
  intros HD [Hm (R & HM & HR & Hl)].
  assert (Hq : M / D = shr_m mrs)
    by (symmetry; apply (Z.div_unique M D (shr_m mrs) R); lia).
  assert (Hr : M mod D = R)
    by (symmetry; apply (Z.mod_unique M D (shr_m mrs) R); lia).
  now rewrite Hq, Hr.
Qed.

Lemma round_nearest_even_rel (m : Z) (l : location) (R D : Z) :
  0 <= R < D -> loc_rel l R D ->
  let mf := round_nearest_even m l in
  (mf = m \/ (mf = m + 1 /\ D <= 2 * R)) /\ (R = 0 -> mf = m).
Proof.
  intros HR Hl. destruct l as [|[| |]]; cbv [loc_rel] in Hl;
    cbv [round_nearest_even].
  - auto.
  - destruct (Z.even m).
    + split; [left|]; reflexivity.
    + split; [right|]; lia.
  - split; [left|]; lia.
  - split; [right|]; lia.
Qed.

Lemma new_location_rel (nb k : Z) :
  0 < nb -> 0 <= k < nb -> loc_rel (new_location nb k) k nb.
Proof.
  intros Hnb Hk. unfold new_location.
  destruct (Z.even nb) eqn:Ev.
  - unfold new_location_even.
    destruct (Z.eqb_spec k 0); [assumption|].
    destruct (Z.compare_spec (2 * k) nb); unfold loc_rel; lia.
  - unfold new_location_odd.
    destruct (Z.eqb_spec k 0); [assumption|].
    assert (Hodd : Z.odd nb = true) by (rewrite <- Z.negb_even, Ev; reflexivity).
    apply Z.odd_spec in Hodd. destruct Hodd as [j Hj].
    destruct (Z.compare_spec (2 * k + 1) nb); unfold loc_rel; lia.
Qed.

Lemma fexp_normal (k : Z) : -1074 <= k - 53 -> fexp prec emax k = k - 53.
Proof. unfold fexp, emin, prec, emax. lia. Qed.

Lemma div_pow2_bounds (m n : Z) :
  0 <= n -> 2 ^ (52 + n) <= m < 2 ^ (53 + n) ->
  2 ^ 52 <= m / 2 ^ n < 2 ^ 53.
Proof.
  intros Hn [Hlo Hhi]. rewrite Z.pow_add_r in Hlo, Hhi by lia.
  pose proof (pow2_pos n Hn). split.
  - apply Z.div_le_lower_bound; lia.
  - apply Z.div_lt_upper_bound; lia.
Qed.

(** Rounding in the normal range: the mantissa [m] has at least 53
    digits and the exact value is [M / D * 2 ^ e]. *)
Lemma round_normal (s : bool) (m e : Z) (l : location) (M D R : Z) :
  0 < D -> 0 < m -> M = m * D + R -> 0 <= R < D -> loc_rel l R D ->
  53 <= Zdigits2 m ->
  -1074 <= Zdigits2 m + e - 53 <= 970 ->
  let n := Zdigits2 m - 53 in
  let m1 := M / (D * 2 ^ n) in
  let R1 := M mod (D * 2 ^ n) in
  exists mf,
    (mf = m1 \/ (mf = m1 + 1 /\ D * 2 ^ n <= 2 * R1)) /\
    (R1 = 0 -> mf = m1) /\
    2 ^ 52 <= m1 < 2 ^ 53 /\
    binary_round_aux prec emax s m e l
    = if mf <? 2 ^ 53 then S754_finite s (Z.to_pos mf) (e + n)
      else S754_finite s (Z.to_pos (2 ^ 52)) (e + n + 1).
Proof.
  intros HD Hm HM HR Hl Hd He n m1 R1.
  assert (Hn : 0 <= n) by (subst n; lia).
  pose proof (pow2_pos n Hn) as Hpn.
  assert (HDn : 0 < D * 2 ^ n) by nia.
  unfold binary_round_aux, shr_fexp.
  rewrite fexp_normal by lia.
  replace (Zdigits2 m + e - 53 - e) with n by (subst n; lia).
  destruct (shr_ok (shr_record_of_loc m l) e n M D HD Hn
                   (loc_ok_init m l M D R ltac:(lia) HM HR Hl)) as [Hok He'].
  destruct (shr (shr_record_of_loc m l) e n) as [mrs' e'].
  cbn [fst snd] in Hok, He'. subst e'.
  destruct (loc_ok_div mrs' M (D * 2 ^ n) HDn Hok) as [Hm1 Hloc].
  fold m1 in Hm1. fold R1 in Hloc.
  assert (HR1 : 0 <= R1 < D * 2 ^ n) by (apply Z.mod_pos_bound; lia).
  destruct (round_nearest_even_rel (shr_m mrs') (loc_of_shr_record mrs')
                                   R1 (D * 2 ^ n) HR1 Hloc) as [Hmf Hex].
  set (mf := round_nearest_even (shr_m mrs') (loc_of_shr_record mrs')) in *.
  rewrite Hm1 in Hmf, Hex.
  assert (Hb : 2 ^ 52 <= m1 < 2 ^ 53).
  { subst m1. rewrite <- Z.div_div by lia.
    replace (M / D) with m
      by (apply (Z.div_unique M D m R); lia).
    apply div_pow2_bounds; [assumption|].
    pose proof (Zdigits2_bounds m Hm) as Hdb.
    replace (52 + n) with (Zdigits2 m - 1) by (subst n; lia).
    replace (53 + n) with (Zdigits2 m) by (subst n; lia). exact Hdb. }
  exists mf. split; [exact Hmf|]. split; [exact Hex|]. split; [exact Hb|].
  destruct (Z.ltb_spec mf (2 ^ 53)) as [Hlt|Hge].
  - assert (Hdm : Zdigits2 mf = 53)
      by (apply Zdigits2_unique; [change (53 - 1) with 52|]; lia).
    rewrite Hdm, fexp_normal by lia.
    replace (53 + (e + n) - 53 - (e + n)) with 0 by lia.
    cbn [shr shr_record_of_loc shr_m].
    destruct mf as [|p|p]; try lia.
    replace (e + n <=? emax - prec) with true
      by (symmetry; apply Z.leb_le; unfold emax, prec; subst n; lia).
    reflexivity.
  - assert (Hmf' : mf = 2 ^ 53) by lia.
    rewrite Hmf'.
    change (Zdigits2 (2 ^ 53)) with 54.
    rewrite fexp_normal by lia.
    replace (54 + (e + n) - 53 - (e + n)) with 1 by lia.
    cbn [shr shr_record_of_loc iter_pos].
    change (shr_m (shr_1 {| shr_m := 2 ^ 53; shr_r := false; shr_s := false |}))
      with (2 ^ 52).
    change (2 ^ 52) with (Z.pos (Z.to_pos (2 ^ 52))) at 1.
    cbv iota beta.
    replace (e + n + 1 <=? emax - prec) with true
      by (symmetry; apply Z.leb_le; unfold emax, prec; subst n; lia).
    reflexivity.
Qed.

Lemma shl_align_down (mx : positive) (ex ex' : Z) :
  ex' <= ex ->
  shl_align mx ex ex' = (Z.to_pos (Z.pos mx * 2 ^ (ex - ex')), ex').
Proof.
  intros H. unfold shl_align.
  destruct (ex' - ex) as [|d|d] eqn:E; try lia.
  - replace (ex - ex') with 0 by lia. rewrite Z.mul_1_r, Pos2Z.id.
    f_equal. lia.
  - replace (ex - ex') with (Z.pos d) by lia.
    rewrite <- iter_xO, Pos2Z.id. reflexivity.
Qed.

Lemma shl_align_up (mx : positive) (ex ex' : Z) :
  ex <= ex' -> shl_align mx ex ex' = (mx, ex).
Proof.
  intros H. unfold shl_align.
  destruct (ex' - ex) as [|d|d] eqn:E; try lia; reflexivity.
Qed.

Lemma Zdigits2_mul_pow2 (m k : Z) :
  0 < m -> 0 <= k -> Zdigits2 (m * 2 ^ k) = Zdigits2 m + k.
Proof.
  intros Hm Hk. pose proof (Zdigits2_bounds m Hm) as [Hl Hh].
  pose proof (Zdigits2_ge1 m Hm). pose proof (pow2_pos k Hk).
  apply Zdigits2_unique; [|lia].
  replace (Zdigits2 m + k - 1) with (Zdigits2 m - 1 + k) by lia.
  rewrite !Z.pow_add_r by lia. nia.
Qed.

Lemma Zdigits2_le (m k : Z) : 0 < m -> m < 2 ^ k -> Zdigits2 m <= k.
Proof.
  intros Hm H. pose proof (Zdigits2_bounds m Hm) as [Hl _].
  destruct (Z.lt_ge_cases k 0) as [Hk|Hk].
  - rewrite Z.pow_neg_r in H by assumption. lia.
  - assert (Zdigits2 m - 1 < k) by (apply pow2_lt_inv; lia). lia.
Qed.

(** An integer [Q] of at most 53 digits, given with [k] more low zero
    bits than its 53-digit mantissa has, is rounded to itself. *)
Lemma round_exact_int (s : bool) (Q k : Z) :
  0 < Q < 2 ^ 53 -> 0 <= k ->
  let u := 53 - Zdigits2 Q in
  binary_round_aux prec emax s (Q * 2 ^ (u + k)) (- (u + k)) loc_Exact
  = S754_finite s (Z.to_pos (Q * 2 ^ u)) (- u).
Proof.
  intros HQ Hk u.
  assert (HdQ : 1 <= Zdigits2 Q <= 53)
    by (split; [apply Zdigits2_ge1|apply Zdigits2_le]; lia).
  assert (Hu : 0 <= u) by (subst u; lia).
  pose proof (pow2_pos (u + k) ltac:(lia)) as Hp.
  pose proof (pow2_pos u Hu) as Hpu. pose proof (pow2_pos k Hk) as Hpk.
  assert (Hdm : Zdigits2 (Q * 2 ^ (u + k)) = 53 + k)
    by (rewrite Zdigits2_mul_pow2 by lia; subst u; lia).
  destruct (round_normal s (Q * 2 ^ (u + k)) (- (u + k)) loc_Exact
              (Q * 2 ^ (u + k)) 1 0)
    as (mf & _ & Hex & Hb & ->);
    [lia|nia|lia|lia|reflexivity|rewrite Hdm; lia
    |rewrite Hdm; subst u; lia|].
  rewrite Hdm in *. replace (53 + k - 53) with k in * by lia.
  rewrite Z.mul_1_l in *.
  assert (Hdiv : Q * 2 ^ (u + k) / 2 ^ k = Q * 2 ^ u).
  { rewrite Z.pow_add_r, Z.mul_assoc by lia. apply Z.div_mul. lia. }
  assert (Hmod : Q * 2 ^ (u + k) mod 2 ^ k = 0).
  { rewrite Z.pow_add_r, Z.mul_assoc by lia. apply Z.mod_mul. lia. }
  rewrite Hdiv in *. rewrite (Hex Hmod).
  replace (Q * 2 ^ u <? 2 ^ 53) with true by (symmetry; apply Z.ltb_lt; lia).
  f_equal. lia.
Qed.

Lemma float_of_int_small (n : Z) :
  0 < n < 2 ^ 53 ->
  float_of_int n
  = Returned (S754_finite false (Z.to_pos (n * 2 ^ (53 - Zdigits2 n)))
                          (Zdigits2 n - 53)).
Proof.
  intros Hn. destruct n as [|p|p]; try lia.
  assert (Hd : 1 <= Zdigits2 (Z.pos p) <= 53)
    by (split; [apply Zdigits2_ge1|apply Zdigits2_le]; lia).
  unfold float_of_int, binary_normalize, binary_round.
  change (Z.pos (digits2_pos p)) with (Zdigits2 (Z.pos p)).
  rewrite Z.add_0_r, fexp_normal by lia.
  rewrite shl_align_down by lia.
  set (u := 53 - Zdigits2 (Z.pos p)).
  replace (0 - (Zdigits2 (Z.pos p) - 53)) with u by (subst u; lia).
  pose proof (pow2_pos u ltac:(subst u; lia)).
  rewrite Z2Pos.id by nia.
  replace (Zdigits2 (Z.pos p) - 53) with (- (u + 0)) by (subst u; lia).
  replace (Z.pos p * 2 ^ u) with (Z.pos p * 2 ^ (u + 0)) at 1
    by (rewrite Z.add_0_r; reflexivity).
  subst u. rewrite (round_exact_int false (Z.pos p) 0) by lia.
  cbn [finite_or_overflow]. f_equal. f_equal. lia.
Qed.

(** ** Line 64: the floor of the float quotient *)

Lemma div_eucl_div_mod (a b : Z) : Z.div_eucl a b = (a / b, a mod b).
Proof. unfold Z.div, Z.modulo. now destruct (Z.div_eucl a b). Qed.

Lemma Zdigits2_ge (m k : Z) : 0 <= k -> 2 ^ k <= m -> k + 1 <= Zdigits2 m.
Proof.
  intros Hk H. pose proof (pow2_pos k Hk).
  pose proof (Zdigits2_bounds m ltac:(lia)) as [_ Hh].
  pose proof (Zdigits2_ge1 m ltac:(lia)).
  assert (k < Zdigits2 m) by (apply pow2_lt_inv; lia). lia.
Qed.

Lemma new_location_exact (nb : Z) : new_location nb 0 = loc_Exact.
Proof.
  unfold new_location, new_location_even, new_location_odd.
  destruct (Z.even nb); reflexivity.
Qed.

(** The quotient of two 53-digit mantissas, before rounding. *)
Lemma SFdiv_core_53 (m1 m2 e1 e2 : Z) :
  Zdigits2 m1 = 53 -> Zdigits2 m2 = 53 -> -1074 <= e1 - e2 - 53 ->
  SFdiv_core_binary prec emax m1 e1 m2 e2
  = (m1 * 2 ^ 53 / m2, e1 - e2 - 53,
     new_location m2 ((m1 * 2 ^ 53) mod m2)).
Proof.
  intros H1 H2 He. unfold SFdiv_core_binary. rewrite H1, H2.
  replace (53 + e1 - (53 + e2)) with (e1 - e2) by lia.
  rewrite fexp_normal by lia.
  rewrite Z.min_l by lia.
  replace (e1 - e2 - (e1 - e2 - 53)) with 53 by lia.
  cbv iota. rewrite Z.shiftl_mul_pow2 by lia.
  rewrite div_eucl_div_mod. reflexivity.
Qed.

(** The quotient of two integers, before rounding. *)
Lemma SFdiv_core_int (n b : Z) :
  0 < n -> 0 < b ->
  let e' := Z.min (fexp prec emax (Zdigits2 n - Zdigits2 b)) 0 in
  SFdiv_core_binary prec emax n 0 b 0
  = (n * 2 ^ (- e') / b, e', new_location b ((n * 2 ^ (- e')) mod b)).
Proof.
  intros Hn Hb e'. unfold SFdiv_core_binary.
  replace (Zdigits2 n + 0 - (Zdigits2 b + 0)) with (Zdigits2 n - Zdigits2 b)
    by lia.
  change (0 - 0) with 0. fold e'.
  assert (He : e' <= 0) by (subst e'; lia).
  replace (0 - e') with (- e') by lia.
  destruct (- e') as [|p|p] eqn:E; try lia.
  - rewrite Z.mul_1_r, div_eucl_div_mod. reflexivity.
  - rewrite Z.shiftl_mul_pow2 by lia.
    rewrite div_eucl_div_mod. reflexivity.
Qed.

Lemma int_of_floor_round (mf t : Z) :
  0 <= t -> 2 ^ 52 <= mf <= 2 ^ 53 ->
  int_of_floor (if mf <? 2 ^ 53
                then S754_finite false (Z.to_pos mf) (- t)
                else S754_finite false (Z.to_pos (2 ^ 52)) (- t + 1))
  = Returned (mf / 2 ^ t).
Proof.
  intros Ht Hmf. destruct (Z.ltb_spec mf (2 ^ 53)) as [Hlt|Hge];
    cbv [int_of_floor cond_neg]; f_equal.
  - rewrite Z2Pos.id by lia.
    destruct (Z.ltb_spec (- t) 0) as [H|H].
    + now rewrite Z.opp_involutive.
    + replace t with 0 by lia. cbn. now rewrite Z.mul_1_r, Z.div_1_r.
  - assert (mf = 2 ^ 53) by lia. subst mf.
    rewrite Z2Pos.id by lia.
    destruct (Z.ltb_spec (- t + 1) 0) as [H|H].
    + replace (- (- t + 1)) with (t - 1) by lia.
      replace t with (t - 1 + 1) at 2 by lia.
      rewrite Z.pow_add_r by lia.
      change (2 ^ 53) with (2 ^ 52 * 2 ^ 1).
      rewrite Z.div_mul_cancel_r; [reflexivity| |lia].
      pose proof (pow2_pos (t - 1)). lia.
    + assert (Ht' : t = 0 \/ t = 1) by lia.
      destruct Ht' as [-> | ->]; reflexivity.
Qed.

(** The floor of a correctly rounded quotient of integers below 2^53 is
    the floor of the quotient, when the division is not exact. *)
Lemma floor_of_rounded (n b t mf : Z) :
  0 < n < 2 ^ 53 -> 0 < b -> 0 <= t -> n mod b <> 0 ->
  2 ^ 52 <= n * 2 ^ t / b ->
  mf = n * 2 ^ t / b \/
  (mf = n * 2 ^ t / b + 1 /\ b <= 2 * ((n * 2 ^ t) mod b)) ->
  mf / 2 ^ t = n / b.
Proof.
  intros Hn Hb Ht Hr Hlo Hmf.
  pose proof (pow2_pos t Ht) as HP. set (P := 2 ^ t) in *.
  pose proof (Z.div_mod n b ltac:(lia)) as En.
  pose proof (Z.mod_pos_bound n b Hb) as Rn.
  set (Q := n / b) in *. set (r := n mod b) in *.
  pose proof (Z.div_mod (r * P) b ltac:(lia)) as Ej.
  pose proof (Z.mod_pos_bound (r * P) b Hb) as Rj.
  set (j := r * P / b) in *. set (rho := (r * P) mod b) in *.
  assert (Hj : 0 <= j < P).
  { split.
    - subst j. apply Z.div_pos; nia.
    - subst j. apply Z.div_lt_upper_bound; nia. }
  assert (HA : n * P = b * (Q * P + j) + rho) by nia.
  assert (Hq : n * P / b = Q * P + j)
    by (symmetry; apply (Z.div_unique (n * P) b (Q * P + j) rho); lia).
  assert (Hm : (n * P) mod b = rho)
    by (symmetry; apply (Z.mod_unique (n * P) b (Q * P + j) rho); lia).
  rewrite Hq, Hm in *.
  assert (Hb2 : b < 2 * P).
  { assert (2 ^ 52 * b <= n * P) by nia.
    assert (n * P < 2 ^ 53 * P) by nia. lia. }
  destruct Hmf as [-> | [-> Hup]].
  - symmetry. apply (Z.div_unique (Q * P + j) P Q j); lia.
  - assert (Hj1 : j + 1 < P).
    { destruct (Z.lt_ge_cases (j + 1) P) as [|Hge]; [assumption|exfalso].
      assert (j = P - 1) by lia. subst j.
      assert ((b - r) * P = b - rho) by nia.
      assert (1 * P <= (b - r) * P) by (apply Z.mul_le_mono_nonneg_r; lia).
      lia. }
    symmetry. apply (Z.div_unique (Q * P + j + 1) P Q (j + 1)); lia.
Qed.

(** Line 64: [int(np.floor(float(n) / float(b)))] is the integer floor. *)
Lemma floor_div_small (n b : Z) :
  0 < n < 2 ^ 53 -> 0 < b < 2 ^ 53 -> n mod b <> 0 ->
  bind (float_of_int n) (fun x =>
  bind (float_of_int b) (fun y =>
  bind (float_div x y) int_of_floor))
  = Returned (n / b).
Proof.
  intros Hn Hb Hr.
  rewrite (float_of_int_small n Hn), (float_of_int_small b Hb).
  cbn [bind]. unfold float_div. cbn [is_zero bind SFdiv xorb].
  assert (Hd1 : 1 <= Zdigits2 n <= 53)
    by (split; [apply Zdigits2_ge1|apply Zdigits2_le]; lia).
  assert (Hd2 : 1 <= Zdigits2 b <= 53)
    by (split; [apply Zdigits2_ge1|apply Zdigits2_le]; lia).
  set (d1 := Zdigits2 n) in *. set (d2 := Zdigits2 b) in *.
  pose proof (pow2_pos (53 - d1) ltac:(lia)) as Hp1.
  pose proof (pow2_pos (53 - d2) ltac:(lia)) as Hp2.
  rewrite !Z2Pos.id by nia.
  set (m1 := n * 2 ^ (53 - d1)). set (m2 := b * 2 ^ (53 - d2)).
  assert (Hm1d : Zdigits2 m1 = 53)
    by (subst m1 d1; rewrite Zdigits2_mul_pow2 by lia; lia).
  assert (Hm2d : Zdigits2 m2 = 53)
    by (subst m2 d2; rewrite Zdigits2_mul_pow2 by lia; lia).
  assert (Hm1 : 2 ^ 52 <= m1 < 2 ^ 53).
  { pose proof (Zdigits2_bounds m1 ltac:(subst m1; nia)) as H.
    rewrite Hm1d in H. exact H. }
  assert (Hm2 : 2 ^ 52 <= m2 < 2 ^ 53).
  { pose proof (Zdigits2_bounds m2 ltac:(subst m2; nia)) as H.
    rewrite Hm2d in H. exact H. }
  rewrite (SFdiv_core_53 m1 m2 (d1 - 53) (d2 - 53) Hm1d Hm2d) by lia.
  set (M := m1 * 2 ^ 53). set (q := M / m2).
  pose proof (Z.div_mod M m2 ltac:(lia)) as EM.
  pose proof (Z.mod_pos_bound M m2 ltac:(lia)) as RM.
  fold q in EM.
  assert (Hq : 2 ^ 52 <= q < 2 ^ 54).
  { split.
    - subst q. apply Z.div_le_lower_bound; [lia|]. subst M. nia.
    - subst q. apply Z.div_lt_upper_bound; [lia|]. subst M. nia. }
  assert (Hdq : 53 <= Zdigits2 q <= 54).
  { split.
    - apply (Zdigits2_ge q 52); lia.
    - apply Zdigits2_le; lia. }
  destruct (round_normal false q (d1 - 53 - (d2 - 53) - 53)
              (new_location m2 (M mod m2)) M m2 (M mod m2))
    as (mf & Hmf & _ & Hb1 & ->);
    [lia|lia|lia|lia|apply new_location_rel; lia|lia|lia|].
  set (n' := Zdigits2 q - 53) in *.
  set (t := 53 - d1 + d2 - n').
  assert (Ht : 0 <= t) by (subst t n'; lia).
  replace (d1 - 53 - (d2 - 53) - 53 + n') with (- t) by (subst t; lia).
  pose proof (pow2_pos n' ltac:(subst n'; lia)) as Hpn.
  pose proof (pow2_pos t Ht) as Hpt.
  set (c := 2 ^ (53 - d2) * 2 ^ n').
  assert (Hc : 0 < c) by (subst c; nia).
  assert (HD : m2 * 2 ^ n' = b * c) by (subst m2 c; lia).
  assert (HM : M = n * 2 ^ t * c).
  { subst M m1 c. rewrite <- !Z.mul_assoc. f_equal.
    rewrite <- !Z.pow_add_r by lia. f_equal. subst t. lia. }
  rewrite HD, HM in Hmf, Hb1.
  rewrite Z.div_mul_cancel_r in Hmf, Hb1 by lia.
  rewrite Z.mul_mod_distr_r in Hmf by lia.
  rewrite int_of_floor_round by lia.
  f_equal. apply floor_of_rounded; try lia.
  destruct Hmf as [Hmf | [Hmf Hup]]; [left; exact Hmf|right].
  split; [exact Hmf|]. nia.
Qed.

(** ** Line 66 and the ceiling *)

Lemma ceil_div_bounds (n b : Z) :
  0 < b -> (ceil_div n b - 1) * b < n <= ceil_div n b * b.
Proof.
  intros Hb. unfold ceil_div.
  pose proof (Z.div_mod (n + b - 1) b ltac:(lia)) as E.
  pose proof (Z.mod_pos_bound (n + b - 1) b Hb) as R.
  nia.
Qed.

Lemma ceil_div_unique (n b q : Z) :
  0 < b -> (q - 1) * b < n <= q * b -> ceil_div n b = q.
Proof.
  intros Hb H. pose proof (@ceil_div_bounds n b Hb) as C. nia.
Qed.

Lemma ceil_div_nonneg (n b : Z) : 0 < b -> 0 <= n -> 0 <= ceil_div n b.
Proof.
  intros Hb Hn. pose proof (@ceil_div_bounds n b Hb). nia.
Qed.

Lemma int_true_div_pos (n b : Z) :
  0 < n -> 0 < b ->
  int_true_div n b
  = let '(mz, ez, lz) := SFdiv_core_binary prec emax n 0 b 0 in
    finite_or_overflow (binary_round_aux prec emax false mz ez lz).
Proof.
  intros Hn Hb. unfold int_true_div.
  destruct (Z.eqb_spec b 0) as [|_]; [lia|].
  replace (n <? 0) with false by (symmetry; apply Z.ltb_ge; lia).
  replace (b <? 0) with false by (symmetry; apply Z.ltb_ge; lia).
  cbn [xorb]. rewrite !Z.abs_eq by lia.
  destruct n; try lia. reflexivity.
Qed.

(** Line 66, the exact division: [n / b] on integers is the float of the
    quotient. *)
Lemma int_true_div_exact (n b : Z) :
  0 < n < 2 ^ 53 -> 0 < b -> n mod b = 0 ->
  int_true_div n b
  = Returned (S754_finite false
                (Z.to_pos (n / b * 2 ^ (53 - Zdigits2 (n / b))))
                (Zdigits2 (n / b) - 53)).
Proof.
  intros Hn Hb Hr.
  pose proof (Z.div_mod n b ltac:(lia)) as En. rewrite Hr in En.
  set (Q := n / b) in *.
  assert (HQ : 0 < Q) by nia.
  assert (Hbn : b <= n) by nia.
  assert (HQn : Q <= n) by nia.
  assert (Hd1 : 1 <= Zdigits2 n <= 53)
    by (split; [apply Zdigits2_ge1|apply Zdigits2_le]; lia).
  assert (Hd2 : 1 <= Zdigits2 b <= 53)
    by (split; [apply Zdigits2_ge1|apply Zdigits2_le]; lia).
  assert (HdQ : 1 <= Zdigits2 Q <= 53)
    by (split; [apply Zdigits2_ge1|apply Zdigits2_le]; lia).
  pose proof (Zdigits2_bounds n ltac:(lia)) as Bn.
  pose proof (Zdigits2_bounds b ltac:(lia)) as Bb.
  pose proof (Zdigits2_bounds Q ltac:(lia)) as BQ.
  set (d1 := Zdigits2 n) in *. set (d2 := Zdigits2 b) in *.
  set (dQ := Zdigits2 Q) in *.
  assert (Hd21 : d2 <= d1).
  { assert (d2 - 1 < d1); [|lia]. apply pow2_lt_inv; lia. }
  assert (HdQ' : d1 - d2 <= dQ).
  { destruct (Z.lt_ge_cases dQ (d1 - d2)) as [Hlt|]; [exfalso|assumption].
    assert (H1 : 2 ^ dQ <= 2 ^ (d1 - d2 - 1))
      by (apply Z.pow_le_mono_r; lia).
    assert (H2 : 2 ^ (d1 - 1) = 2 ^ (d1 - d2 - 1) * 2 ^ d2)
      by (rewrite <- Z.pow_add_r by lia; f_equal; lia).
    pose proof (pow2_pos (d1 - d2 - 1) ltac:(lia)).
    nia. }
  rewrite int_true_div_pos by lia.
  rewrite (SFdiv_core_int n b) by lia. fold d1 d2.
  rewrite fexp_normal by lia.
  rewrite Z.min_l by lia.
  set (s := - (d1 - d2 - 53)).
  assert (Hs : 0 < s) by (subst s; lia).
  pose proof (pow2_pos s ltac:(lia)) as Hps.
  assert (Hq : n * 2 ^ s / b = Q * 2 ^ s).
  { rewrite En. replace (b * Q + 0) with (Q * b) by lia.
    replace (Q * b * 2 ^ s) with (Q * 2 ^ s * b) by lia.
    apply Z.div_mul. lia. }
  assert (Hm : (n * 2 ^ s) mod b = 0).
  { rewrite En. replace (b * Q + 0) with (Q * b) by lia.
    replace (Q * b * 2 ^ s) with (Q * 2 ^ s * b) by lia.
    apply Z.mod_mul. lia. }
  rewrite Hq, Hm, new_location_exact.
  set (u := 53 - dQ).
  replace (d1 - d2 - 53) with (- (u + (s - u))) by (subst s u; lia).
  replace (Q * 2 ^ s) with (Q * 2 ^ (u + (s - u))) by (f_equal; f_equal; lia).
  pose proof (round_exact_int false Q (s - u) ltac:(lia)
                              ltac:(subst s u; lia)) as Hre.
  cbv zeta in Hre. fold dQ in Hre. fold u in Hre. rewrite Hre.
  cbn [finite_or_overflow]. f_equal. f_equal. subst u. lia.
Qed.

Lemma float_of_int_one :
  float_of_int 1 = Returned (S754_finite false (Z.to_pos (2 ^ 52)) (- 52)).
Proof. vm_compute. reflexivity. Qed.

(** Line 66, the subtraction: one less than an integer float is exact. *)
Lemma sub_one_exact (Q : Z) :
  0 < Q < 2 ^ 53 ->
  int_of_float
    (float_sub
       (S754_finite false (Z.to_pos (Q * 2 ^ (53 - Zdigits2 Q)))
                    (Zdigits2 Q - 53))
       (S754_finite false (Z.to_pos (2 ^ 52)) (- 52)))
  = Returned (Q - 1).
Proof.
  intros HQ.
  assert (HdQ : 1 <= Zdigits2 Q <= 53)
    by (split; [apply Zdigits2_ge1|apply Zdigits2_le]; lia).
  set (dQ := Zdigits2 Q) in *. set (u := 53 - dQ).
  pose proof (pow2_pos u ltac:(subst u; lia)) as Hpu.
  unfold float_sub, SFsub.
  rewrite Z.min_r by lia.
  rewrite shl_align_down by lia.
  rewrite (shl_align_up _ (- 52) (- 52)) by lia.
  cbn [fst cond_Zopp].
  rewrite (Z2Pos.id (Q * 2 ^ u)) by nia.
  replace (dQ - 53 - - 52) with (52 - u) by (subst u; lia).
  pose proof (pow2_pos (52 - u) ltac:(subst u; lia)) as Hpu'.
  rewrite !Z2Pos.id by (try nia; lia).
  assert (E : Q * 2 ^ u * 2 ^ (52 - u) - 2 ^ 52 = (Q - 1) * 2 ^ 52).
  { rewrite <- Z.mul_assoc, <- Z.pow_add_r by (subst u; lia).
    replace (u + (52 - u)) with 52 by lia. lia. }
  rewrite E.
  destruct (Z.eq_dec Q 1) as [->|HQ1]; [reflexivity|].
  assert (HQ' : 0 < Q - 1 < 2 ^ 53) by lia.
  assert (Hd' : 1 <= Zdigits2 (Q - 1) <= 53)
    by (split; [apply Zdigits2_ge1|apply Zdigits2_le]; lia).
  destruct ((Q - 1) * 2 ^ 52) as [|p|p] eqn:Ep; try lia.
  cbn [binary_normalize]. unfold binary_round.
  change (Z.pos (digits2_pos p)) with (Zdigits2 (Z.pos p)).
  rewrite <- Ep.
  rewrite Zdigits2_mul_pow2 by lia.
  rewrite fexp_normal by lia.
  rewrite shl_align_up by lia.
  rewrite <- Ep.
  set (u' := 53 - Zdigits2 (Q - 1)).
  replace (- 52) with (- (u' + (52 - u'))) by lia.
  replace ((Q - 1) * 2 ^ 52) with ((Q - 1) * 2 ^ (u' + (52 - u')))
    by (f_equal; f_equal; lia).
  pose proof (round_exact_int false (Q - 1) (52 - u') ltac:(lia)
                              ltac:(subst u'; lia)) as Hre.
  cbv zeta in Hre. fold u' in Hre. rewrite Hre.
  pose proof (pow2_pos u' ltac:(subst u'; lia)) as Hpu''.
  cbv [int_of_float cond_neg]. f_equal.
  rewrite Z2Pos.id by nia.
  destruct (Z.ltb_spec (- u') 0) as [H|H].
  - rewrite Z.opp_involutive. apply Z.quot_mul. lia.
  - replace u' with 0 by lia. cbn. lia.
Qed.

(** On an empty input the float path is [0 / b - 1], whatever the size
    of [b]. *)
Lemma loop_num_empty (b : Z) : b <> 0 -> loop_num 0 b = Returned (-1).
Proof.
  intros Hb. unfold loop_num, py_mod, int_true_div.
  destruct (Z.eqb_spec b 0) as [|_]; [contradiction|].
  rewrite Z.mod_0_l by assumption. cbn [bind Z.gtb Z.compare].
  rewrite float_of_int_one. cbn [bind].
  destruct (xorb (0 <? 0) (b <? 0)); vm_compute; reflexivity.
Qed.

(** Lines 63-66 in the range where binary64 holds every integer. *)
Lemma loop_num_ceil (n b : Z) :
  0 <= n < 2 ^ 53 -> 1 <= b < 2 ^ 53 ->
  loop_num n b = Returned (ceil_div n b - 1).
Proof.
  intros Hn Hb.
  destruct (Z.eq_dec n 0) as [->|Hn0].
  - rewrite loop_num_empty by lia. f_equal.
    assert (ceil_div 0 b = 0) by (apply ceil_div_unique; lia). lia.
  - unfold loop_num, py_mod.
    destruct (Z.eqb_spec b 0) as [|_]; [lia|]. cbn [bind].
    pose proof (Z.div_mod n b ltac:(lia)) as E.
    pose proof (Z.mod_pos_bound n b ltac:(lia)) as R.
    destruct (Z.gtb_spec (n mod b) 0) as [Hr|Hr].
    + rewrite floor_div_small by lia. f_equal.
      assert (ceil_div n b = n / b + 1); [|lia].
      apply ceil_div_unique; nia.
    + assert (Hm : n mod b = 0) by lia.
      assert (HQ : 0 < n / b < 2 ^ 53) by nia.
      rewrite int_true_div_exact by lia. cbn [bind].
      rewrite float_of_int_one. cbn [bind].
      rewrite sub_one_exact by lia. f_equal.
      assert (ceil_div n b = n / b); [|lia].
      apply ceil_div_unique; nia.
Qed.

(** ** Line 66 with a negative batch size *)

Lemma loc_exists (l : location) : exists R, 0 <= R < 4 /\ loc_rel l R 4.
Proof.
  destruct l as [|[| |]]; [exists 0|exists 2|exists 1|exists 3];
    cbv [loc_rel]; lia.
Qed.

Lemma shr_m_shr (m e n : Z) (l : location) :
  0 <= m -> 0 <= n ->
  shr_m (fst (shr (shr_record_of_loc m l) e n)) = m / 2 ^ n /\
  snd (shr (shr_record_of_loc m l) e n) = e + n.
Proof.
  intros Hm Hn. destruct (loc_exists l) as (R & HR & Hl).
  destruct (shr_ok (shr_record_of_loc m l) e n (m * 4 + R) 4
                   ltac:(lia) Hn
                   (loc_ok_init m l (m * 4 + R) 4 R Hm eq_refl HR Hl))
    as [Hok He].
  split; [|exact He].
  pose proof (pow2_pos n Hn) as Hp.
  destruct (loc_ok_div _ (m * 4 + R) (4 * 2 ^ n) ltac:(lia) Hok) as [-> _].
  rewrite <- Z.div_div by lia. f_equal.
  symmetry. apply (Z.div_unique (m * 4 + R) 4 m R); lia.
Qed.

Lemma shr_m_of_loc (m : Z) (l : location) : shr_m (shr_record_of_loc m l) = m.
Proof. destruct l as [|[| |]]; reflexivity. Qed.

Lemma Zdigits2_nonneg (m : Z) : 0 <= Zdigits2 m.
Proof. destruct m; cbn; lia. Qed.

Lemma lt_pow2_digits (m : Z) : 0 <= m -> m < 2 ^ Zdigits2 m.
Proof.
  intros Hm. destruct (Z.eq_dec m 0) as [->|]; [reflexivity|].
  apply Zdigits2_bounds. lia.
Qed.

Lemma Zdigits2_le0 (m k : Z) : 0 <= m -> 0 <= k -> m < 2 ^ k -> Zdigits2 m <= k.
Proof.
  intros Hm Hk H. destruct (Z.eq_dec m 0) as [->|]; [cbn; lia|].
  apply Zdigits2_le; lia.
Qed.

(** After [shr_fexp] the mantissa has at most 53 digits. *)
Lemma shr_fexp_bound (m e : Z) (l : location) :
  0 <= m ->
  0 <= shr_m (fst (shr_fexp prec emax m e l)) < 2 ^ 53 /\
  snd (shr_fexp prec emax m e l) = Z.max e (fexp prec emax (Zdigits2 m + e)).
Proof.
  intros Hm. unfold shr_fexp.
  pose proof (Zdigits2_nonneg m) as Hd. pose proof (lt_pow2_digits m Hm) as Hlt.
  set (d := Zdigits2 m) in *.
  assert (Hf : d + e - 53 <= fexp prec emax (d + e))
    by (unfold fexp, emin, prec, emax; lia).
  set (n := fexp prec emax (d + e) - e) in *.
  destruct (Z.le_gt_cases 0 n) as [Hn|Hn].
  - destruct (shr_m_shr m e n l Hm Hn) as [-> ->].
    pose proof (pow2_pos n Hn) as Hp.
    split; [|subst n; lia]. split; [apply Z.div_pos; lia|].
    apply Z.div_lt_upper_bound; [lia|].
    destruct (Z.le_gt_cases d 53) as [Hd53|Hd53].
    + assert (2 ^ d <= 2 ^ 53) by (apply Z.pow_le_mono_r; lia). nia.
    + assert (2 ^ d <= 2 ^ (n + 53)) by (apply Z.pow_le_mono_r; lia).
      rewrite Z.pow_add_r in * by lia. lia.
  - destruct n as [|p|p] eqn:En; try lia. cbn [shr fst snd].
    rewrite shr_m_of_loc. split; [|lia]. split; [assumption|].
    assert (2 ^ d <= 2 ^ 53) by (apply Z.pow_le_mono_r; lia). lia.
Qed.

Lemma round_nearest_even_cases (m : Z) (l : location) :
  round_nearest_even m l = m \/ round_nearest_even m l = m + 1.
Proof.
  destruct l as [|[| |]]; cbv [round_nearest_even]; auto.
  destruct (Z.even m); auto.
Qed.

(** Rounding a small enough value never overflows, whatever its
    exponent. *)
Lemma round_weak (s : bool) (m e : Z) (l : location) :
  0 <= m -> e <= 0 -> Zdigits2 m + e <= 64 ->
  binary_round_aux prec emax s m e l = S754_zero s \/
  exists m' e',
    binary_round_aux prec emax s m e l = S754_finite s m' e' /\
    Z.pos m' < 2 ^ 53 /\ e' <= 12.
Proof.
  intros Hm He Hd. unfold binary_round_aux.
  pose proof (shr_fexp_bound m e l Hm) as [B1 B2].
  destruct (shr_fexp prec emax m e l) as [mrs' e'].
  cbn [fst snd] in B1, B2.
  set (mf := round_nearest_even (shr_m mrs') (loc_of_shr_record mrs')).
  assert (Hmf : 0 <= mf <= 2 ^ 53)
    by (destruct (round_nearest_even_cases (shr_m mrs')
                    (loc_of_shr_record mrs')); subst mf; lia).
  pose proof (shr_fexp_bound mf e' loc_Exact ltac:(lia)) as [C1 C2].
  destruct (shr_fexp prec emax mf e' loc_Exact) as [mrs'' e''].
  cbn [fst snd] in C1, C2.
  assert (Hdf : Zdigits2 mf <= 54) by (apply Zdigits2_le0; lia).
  assert (He'' : e'' <= 12).
  { subst e'' e'. unfold fexp, emin, prec, emax in *. lia. }
  destruct (shr_m mrs'') as [|p|p]; [| |exfalso; lia].
  - now left.
  - right. exists p, e''.
    replace (e'' <=? emax - prec) with true
      by (symmetry; apply Z.leb_le; unfold emax, prec; lia).
    split; [reflexivity|lia].
Qed.

Lemma int_true_div_neg (n b : Z) :
  0 < n -> b < 0 ->
  int_true_div n b
  = let '(mz, ez, lz) := SFdiv_core_binary prec emax n 0 (- b) 0 in
    finite_or_overflow (binary_round_aux prec emax true mz ez lz).
Proof.
  intros Hn Hb. unfold int_true_div.
  destruct (Z.eqb_spec b 0) as [|_]; [lia|].
  replace (n <? 0) with false by (symmetry; apply Z.ltb_ge; lia).
  replace (b <? 0) with true by (symmetry; apply Z.ltb_lt; lia).
  cbn [xorb]. rewrite Z.abs_eq, Z.abs_neq by lia.
  destruct n; try lia. reflexivity.
Qed.

(** [n / b] for a negative [b] is a float that is zero or negative. *)
Lemma int_true_div_negative (n b : Z) :
  0 < n < 2 ^ 63 -> b < 0 ->
  exists q,
    int_true_div n b = Returned q /\
    (q = S754_zero true \/
     exists m e, q = S754_finite true m e /\ Z.pos m < 2 ^ 53 /\ e <= 12).
Proof.
  intros Hn Hb. rewrite int_true_div_neg by lia.
  rewrite (SFdiv_core_int n (- b)) by lia.
  set (e' := Z.min (fexp prec emax (Zdigits2 n - Zdigits2 (- b))) 0).
  assert (He : e' <= 0) by (subst e'; lia).
  pose proof (pow2_pos (- e') ltac:(lia)) as Hp.
  set (A := n * 2 ^ (- e')).
  assert (HA : 0 <= A) by (subst A; nia).
  assert (Hq : 0 <= A / - b <= A).
  { split; [apply Z.div_pos; lia|].
    apply Z.div_le_upper_bound; nia. }
  assert (Hdq : Zdigits2 (A / - b) + e' <= 64).
  { assert (Zdigits2 (A / - b) <= 63 - e'); [|lia].
    apply Zdigits2_le0; [lia|lia|].
    replace (63 - e') with (63 + - e') by lia.
    rewrite Z.pow_add_r by lia. subst A. nia. }
  destruct (round_weak true (A / - b) e' (new_location (- b) (A mod - b))
                       ltac:(lia) He Hdq)
    as [-> | (m' & e1 & -> & Hm' & He1)].
  - eexists. split; [reflexivity|]. now left.
  - eexists. split; [reflexivity|]. right. eauto.
Qed.

(** Rounding an integer times a power of two whose value is at least
    one. *)
Lemma binary_round_big (s : bool) (p : positive) (e : Z) :
  1 <= Zdigits2 (Z.pos p) + e <= 1000 ->
  exists mf ef,
    binary_round prec emax s p e = S754_finite s mf ef /\
    2 ^ 52 <= Z.pos mf /\ - 52 <= ef.
Proof.
  intros Hd. unfold binary_round.
  change (Z.pos (digits2_pos p)) with (Zdigits2 (Z.pos p)).
  set (d := Zdigits2 (Z.pos p)) in *.
  rewrite fexp_normal by lia.
  assert (Hal : exists (p' : positive) (e1 : Z),
             shl_align p e (d + e - 53) = (p', e1) /\
             53 <= Zdigits2 (Z.pos p') /\
             Zdigits2 (Z.pos p') + e1 = d + e).
  { destruct (Z.le_gt_cases d 53) as [H|H].
    - rewrite shl_align_down by lia.
      pose proof (pow2_pos (e - (d + e - 53)) ltac:(lia)).
      eexists _, _. split; [reflexivity|].
      rewrite Z2Pos.id by nia.
      rewrite Zdigits2_mul_pow2 by lia. fold d. lia.
    - rewrite shl_align_up by lia.
      eexists _, _. split; [reflexivity|]. fold d. lia. }
  destruct Hal as (p' & e1 & -> & Hd' & Hde).
  destruct (round_normal s (Z.pos p') e1 loc_Exact (Z.pos p') 1 0)
    as (mf & Hmf & _ & Hb1 & ->);
    [lia|lia|lia|lia|reflexivity|lia|lia|].
  destruct (Z.ltb_spec mf (2 ^ 53)).
  - eexists _, _. split; [reflexivity|].
    rewrite Z2Pos.id by lia. lia.
  - eexists _, _. split; [reflexivity|].
    rewrite Z2Pos.id by lia. lia.
Qed.

(** A float that is zero or negative, less one, is an integer at most
    -1 once truncated. *)
Lemma sub_one_negative (m : positive) (e : Z) :
  Z.pos m < 2 ^ 53 -> e <= 12 ->
  exists z,
    int_of_float
      (float_sub (S754_finite true m e)
                 (S754_finite false (Z.to_pos (2 ^ 52)) (- 52)))
    = Returned z /\ z <= - 1.
Proof.
  intros Hm He. unfold float_sub, SFsub.
  set (ez := Z.min e (- 52)).
  assert (Hez : ez <= e /\ ez <= - 52) by (subst ez; lia).
  rewrite !shl_align_down by lia. cbn [fst cond_Zopp].
  pose proof (pow2_pos (e - ez) ltac:(lia)) as Hp1.
  pose proof (pow2_pos (- 52 - ez) ltac:(lia)) as Hp2.
  pose proof (pow2_pos (- ez) ltac:(lia)) as Hp3.
  rewrite (Z2Pos.id (2 ^ 52)) by lia.
  rewrite !Z2Pos.id by nia.
  assert (EB : 2 ^ 52 * 2 ^ (- 52 - ez) = 2 ^ (- ez))
    by (rewrite <- Z.pow_add_r by lia; f_equal; lia).
  rewrite EB.
  set (A := Z.pos m * 2 ^ (e - ez)).
  assert (HA : 0 < A < 2 ^ (65 - ez)).
  { split; [subst A; nia|].
    assert (2 ^ (e - ez) <= 2 ^ (12 - ez)) by (apply Z.pow_le_mono_r; lia).
    replace (65 - ez) with (53 + (12 - ez)) by lia.
    rewrite Z.pow_add_r by lia. subst A. nia. }
  assert (HB : 2 ^ (- ez) <= 2 ^ (65 - ez)) by (apply Z.pow_le_mono_r; lia).
  assert (H66 : 2 ^ (66 - ez) = 2 * 2 ^ (65 - ez)).
  { replace (66 - ez) with (Z.succ (65 - ez)) by lia.
    apply Z.pow_succ_r. lia. }
  destruct (- A - 2 ^ (- ez)) as [|p|p] eqn:Ep; try lia.
  cbn [binary_normalize].
  assert (Hp : Z.pos p = A + 2 ^ (- ez)) by lia.
  destruct (binary_round_big true p ez) as (mf & ef & -> & Hmf & Hef).
  { rewrite Hp. split.
    - assert (- ez + 1 <= Zdigits2 (A + 2 ^ (- ez))); [|lia].
      apply Zdigits2_ge; lia.
    - assert (Zdigits2 (A + 2 ^ (- ez)) <= 66 - ez); [|lia].
      apply Zdigits2_le; lia. }
  cbv [int_of_float cond_neg]. eexists. split; [reflexivity|].
  destruct (Z.ltb_spec ef 0) as [H|H].
  - pose proof (pow2_pos (- ef) ltac:(lia)) as Hpe.
    assert (2 ^ (- ef) <= 2 ^ 52) by (apply Z.pow_le_mono_r; lia).
    rewrite Z.quot_opp_l by lia.
    assert (1 <= Z.quot (Z.pos mf) (2 ^ (- ef))); [|lia].
    apply Z.quot_le_lower_bound; lia.
  - pose proof (pow2_pos ef H). nia.
Qed.

Lemma loop_num_negative (n b : Z) :
  0 <= n < 2 ^ 63 -> b < 0 ->
  exists ln, loop_num n b = Returned ln /\ ln + 1 <= 0.
Proof.
  intros Hn Hb.
  destruct (Z.eq_dec n 0) as [->|Hn0].
  - exists (-1). split; [apply loop_num_empty; lia|lia].
  - unfold loop_num, py_mod.
    destruct (Z.eqb_spec b 0) as [|_]; [lia|]. cbn [bind].
    pose proof (Z.mod_neg_bound n b Hb) as R.
    destruct (Z.gtb_spec (n mod b) 0) as [Hr|_]; [lia|].
    destruct (int_true_div_negative n b ltac:(lia) Hb)
      as (q & -> & [-> | (m & e & -> & Hm & He)]);
      cbn [bind]; rewrite float_of_int_one; cbn [bind].
    + exists (-1). split; [vm_compute; reflexivity|lia].
    + destruct (sub_one_negative m e Hm He) as (z & -> & Hz).
      exists z. split; [reflexivity|lia].
Qed.

Lemma loop_num_zero (n : Z) : loop_num n 0 = Raised ZeroDivisionError.
Proof. reflexivity. Qed.

(** Beyond these ranges lines 64 and 66 raise: a batch size, or a
    quotient, too large for a float. *)
Lemma loop_num_overflows :
  loop_num 5 (2 ^ 1024) = Raised OverflowError /\
  loop_num (2 ^ 1024) (- 1) = Raised OverflowError.
Proof. split; vm_compute; reflexivity. Qed.

(** ** Slices and batches *)

Lemma py_slice_bounded {A : Type} (a : list A) (lo hi : Z) :
  0 <= lo <= hi -> hi <= Z.of_nat (length a) ->
  py_slice a lo (Some hi) = firstn (Z.to_nat (hi - lo)) (skipn (Z.to_nat lo) a).
Proof.
  intros Hlo Hhi. unfold py_slice, clamp_index.
  destruct (Z.ltb_spec lo 0); [lia|].
  destruct (Z.ltb_spec hi 0); [lia|].
  rewrite !Z.min_l by lia. reflexivity.
Qed.

Lemma py_slice_tail {A : Type} (a : list A) (lo : Z) :
  0 <= lo <= Z.of_nat (length a) ->
  py_slice a lo None = skipn (Z.to_nat lo) a.
Proof.
  intros Hlo. unfold py_slice, clamp_index.
  destruct (Z.ltb_spec lo 0); [lia|].
  rewrite Z.min_l by lia.
  apply firstn_all2. rewrite length_skipn. lia.
Qed.

(** The [k]-th window of width [b]. *)
Lemma firstn_plus {A : Type} (n m : nat) (l : list A) :
  firstn (n + m) l = firstn n l ++ firstn m (skipn n l).
Proof.
  revert l. induction n as [|n IH]; intros l; [reflexivity|].
  destruct l as [|x l]; cbn [Nat.add firstn skipn].
  - now rewrite firstn_nil.
  - cbn. now rewrite IH.
Qed.

Lemma concat_windows {A : Type} (b : nat) (l : list A) (m : nat) :
  concat (map (fun k => firstn b (skipn (k * b) l)) (seq 0 m))
  = firstn (m * b) l.
Proof.
  induction m as [|m IH]; [reflexivity|].
  rewrite seq_S, map_app, concat_app, IH. cbn [map concat Nat.add].
  rewrite app_nil_r.
  replace (S m * b)%nat with (m * b + b)%nat by lia.
  now rewrite firstn_plus.
Qed.

Lemma loop_slice_window {A : Type} (a : list A) (b : Z) (i : nat) :
  1 <= b ->
  (i < Z.to_nat (ceil_div (Z.of_nat (length a)) b))%nat ->
  loop_slice a b (ceil_div (Z.of_nat (length a)) b - 1) (Z.of_nat i)
  = firstn (Z.to_nat b) (skipn (i * Z.to_nat b) a).
Proof.
  intros Hb Hi. set (n := Z.of_nat (length a)) in *.
  pose proof (@ceil_div_bounds n b ltac:(lia)) as C.
  assert (Hn : 0 <= n) by (subst n; lia).
  pose proof (@ceil_div_nonneg n b ltac:(lia) Hn) as Hc.
  assert (Hib : Z.to_nat (Z.of_nat i * b) = (i * Z.to_nat b)%nat) by nia.
  unfold loop_slice.
  destruct (Z.ltb_spec (Z.of_nat i) (ceil_div n b - 1)) as [Hlt|Hge].
  - rewrite py_slice_bounded by (fold n; nia).
    rewrite Hib. f_equal. lia.
  - rewrite py_slice_tail by (fold n; nia).
    rewrite Hib. symmetry. apply firstn_all2.
    rewrite length_skipn. fold n in C. nia.
Qed.

Lemma loop_batches_windows {A : Type} (a : list A) (b : Z) :
  1 <= b ->
  loop_batches a b (ceil_div (Z.of_nat (length a)) b - 1)
  = map (fun k => firstn (Z.to_nat b) (skipn (k * Z.to_nat b) a))
        (seq 0 (Z.to_nat (ceil_div (Z.of_nat (length a)) b))).
Proof.
  intros Hb. unfold loop_batches, py_range.
  replace (ceil_div (Z.of_nat (length a)) b - 1 + 1)
    with (ceil_div (Z.of_nat (length a)) b) by lia.
  rewrite map_map. apply map_ext_in. intros i Hi.
  apply in_seq in Hi. apply loop_slice_window; lia.
Qed.

Lemma loop_batches_concat {A : Type} (a : list A) (b : Z) :
  1 <= b ->
  concat (loop_batches a b (ceil_div (Z.of_nat (length a)) b - 1)) = a.
Proof.
  intros Hb. rewrite loop_batches_windows by assumption.
  rewrite concat_windows. apply firstn_all2.
  pose proof (@ceil_div_bounds (Z.of_nat (length a)) b ltac:(lia)).
  nia.
Qed.

Lemma loop_batches_length {A : Type} (a : list A) (b ln : Z) :
  length (loop_batches a b ln) = Z.to_nat (ln + 1).
Proof.
  unfold loop_batches, py_range. now rewrite !length_map, length_seq.
Qed.

Lemma loop_batches_nonpositive {A : Type} (a : list A) (b ln : Z) :
  ln + 1 <= 0 -> loop_batches a b ln = [].
Proof.
  intros H. unfold loop_batches, py_range.
  replace (Z.to_nat (ln + 1)) with 0%nat by lia. reflexivity.
Qed.

Lemma loop_batches_nonempty {A : Type} (a : list A) (b : Z) :
  1 <= b -> a <> [] ->
  loop_batches a b (ceil_div (Z.of_nat (length a)) b - 1) <> [].
Proof.
  intros Hb Ha E. apply Ha.
  rewrite <- (loop_batches_concat a b Hb), E. reflexivity.
Qed.

Lemma BatchSplitter_spec_windows {A : Type} (items : list A) (b : Z) :
  1 <= b ->
  BatchSplitter_spec items b
  = map (fun k => firstn (Z.to_nat b) (skipn (k * Z.to_nat b) items))
        (seq 0 (Z.to_nat (ceil_div (Z.of_nat (length items)) b))).
Proof.
  intros Hb. unfold BatchSplitter_spec, py_range.
  set (n := Z.of_nat (length items)).
  pose proof (@ceil_div_bounds n b ltac:(lia)) as C.
  rewrite map_map. apply map_ext_in. intros i Hi. apply in_seq in Hi.
  assert (Hib : Z.to_nat (Z.of_nat i * b) = (i * Z.to_nat b)%nat) by nia.
  rewrite Hib. unfold spec_batch_size.
  destruct (Z.ltb_spec (Z.of_nat i) (ceil_div n b - 1)) as [Hlt|Hge];
    [reflexivity|].
  assert (Hi' : Z.of_nat i = ceil_div n b - 1) by lia.
  pose proof (Z.div_mod n b ltac:(lia)) as E.
  pose proof (Z.mod_pos_bound n b ltac:(lia)) as R.
  rewrite !firstn_all2; [reflexivity| |]; rewrite length_skipn; fold n.
  - nia.
  - destruct (Z.eqb_spec (n mod b) 0) as [Hm|Hm].
    + nia.
    + assert (ceil_div n b = n / b + 1) by (apply ceil_div_unique; nia).
      nia.
Qed.

(** ** Concatenation *)

Lemma same_dims_refl (d : list Z) : same_dims d d = true.
Proof. induction d as [|x d IH]; cbn; [reflexivity|]. now rewrite Z.eqb_refl. Qed.

Lemma concat_rows_uniform {A : Type} (d : list Z) (rs : list (list A)) :
  concat_rows d (map (Array d) rs) = Some (concat rs).
Proof.
  induction rs as [|r rs IH]; cbn; [reflexivity|].
  now rewrite same_dims_refl, IH.
Qed.

(** Arrays whose rows have one shape are concatenated row after row. *)
Lemma np_concatenate_uniform {A : Type} (d : list Z) (rs : list (list A)) :
  rs <> [] ->
  np_concatenate (map (Array d) rs) = Returned (Array d (concat rs)).
Proof.
  intros Hne. destruct rs as [|r rs]; [contradiction|].
  change (map (Array d) (r :: rs)) with (Array d r :: map (Array d) rs).
  unfold np_concatenate.
  change (Array d r :: map (Array d) rs) with (map (Array d) (r :: rs)).
  now rewrite concat_rows_uniform.
Qed.

(** [np.concatenate] raises nothing but ValueError. *)
Lemma np_concatenate_raises {A : Type} (arrays : list (ndarray A)) (e : exn) :
  np_concatenate arrays = Raised e -> e = ValueError.
Proof.
  unfold np_concatenate. destruct arrays as [|[a|d r] rest].
  - now intros [= <-].
  - now intros [= <-].
  - destruct (concat_rows d (Array d r :: rest)); [discriminate|].
    now intros [= <-].
Qed.

(** ** The worker on a stream of batches *)

Section WorkerFacts.

Context {Item Feat : Type}.
Variable infer : list Item -> option (ndarray Feat).

Lemma all_succeed_app (xs ys : list (list Item)) :
  all_succeed infer (xs ++ ys) = all_succeed infer xs && all_succeed infer ys.
Proof. apply forallb_app. Qed.

Lemma all_succeed_snoc (cons : list (list Item)) (b : list Item) (feat : ndarray Feat) :
  all_succeed infer cons = true -> infer b = Some feat ->
  all_succeed infer (cons ++ [b]) = true.
Proof.
  intros Hc Hb. rewrite all_succeed_app, Hc. cbn. now rewrite Hb.
Qed.

Lemma feats_snoc (cons : list (list Item)) (b : list Item) (feat : ndarray Feat) :
  all_succeed infer cons = true -> infer b = Some feat ->
  feats_before_failure infer (cons ++ [b])
  = feats_before_failure infer cons ++ [feat].
Proof.
  intros Hc Hb. induction cons as [|c cons IH]; cbn in *.
  - now rewrite Hb.
  - destruct (infer c); [|discriminate]. now rewrite IH.
Qed.

Lemma feats_stop (cons rest : list (list Item)) (b : list Item) :
  all_succeed infer cons = true -> infer b = None ->
  feats_before_failure infer (cons ++ b :: rest)
  = feats_before_failure infer cons.
Proof.
  intros Hc Hb. induction cons as [|c cons IH]; cbn in *.
  - now rewrite Hb.
  - destruct (infer c); [|discriminate]. now rewrite IH.
Qed.

Lemma consumed_all (cons : list (list Item)) :
  all_succeed infer cons = true -> batches_consumed infer cons = cons.
Proof.
  induction cons as [|c cons IH]; cbn; [reflexivity|].
  destruct (infer c); [|discriminate]. intros H. now rewrite IH.
Qed.

Lemma feats_length (cons : list (list Item)) :
  all_succeed infer cons = true ->
  length (feats_before_failure infer cons) = length cons.
Proof.
  induction cons as [|c cons IH]; [reflexivity|].
  cbn. destruct (infer c); [|discriminate]. intros H. cbn. now rewrite IH.
Qed.

Lemma consumed_stop (cons rest : list (list Item)) (b : list Item) :
  all_succeed infer cons = true -> infer b = None ->
  batches_consumed infer (cons ++ b :: rest) = cons ++ [b].
Proof.
  intros Hc Hb. induction cons as [|c cons IH]; cbn in *.
  - now rewrite Hb.
  - destruct (infer c); [|discriminate]. now rewrite IH.
Qed.

Lemma all_succeed_stop (cons rest : list (list Item)) (b : list Item) :
  infer b = None -> all_succeed infer (cons ++ b :: rest) = false.
Proof.
  intros Hb. rewrite all_succeed_app. cbn. rewrite Hb.
  apply andb_false_r.
Qed.

(** The first failing batch splits the stream. *)
Lemma first_failure (bs : list (list Item)) :
  all_succeed infer bs = false ->
  exists cons b rest,
    bs = cons ++ b :: rest /\ all_succeed infer cons = true /\ infer b = None.
Proof.
  induction bs as [|c bs IH]; cbn; [discriminate|].
  destruct (infer c) as [f|] eqn:Ec.
  - intros H. destruct (IH H) as (cons & b & rest & -> & Hc & Hb).
    exists (c :: cons), b, rest. cbn. rewrite Ec. auto.
  - intros _. exists [], c, bs. auto.
Qed.

Lemma feats_itemwise (d : list Z) (f : Item -> Feat) (bs : list (list Item)) :
  (forall b, In b bs -> infer b = Some (Array d (map f b))) ->
  feats_before_failure infer bs = map (Array d) (map (map f) bs) /\
  all_succeed infer bs = true.
Proof.
  induction bs as [|c bs IH]; intros H; [auto|].
  destruct IH as [E1 E2]; [intros b Hb; apply H; now right|].
  assert (Ec : infer c = Some (Array d (map f c))) by (apply H; now left).
  split.
  - cbn. now rewrite Ec, E1.
  - change (all_succeed infer (c :: bs))
      with ((match infer c with Some _ => true | None => false end)
            && all_succeed infer bs).
    now rewrite Ec, E2.
Qed.

(** The features of batches on which [sess.run] gives arrays with rows
    of one shape [d]. *)
Lemma feats_uniform (d : list Z) (bs : list (list Item)) :
  (forall b, In b bs -> exists r, infer b = Some (Array d r)) ->
  all_succeed infer bs = true /\
  exists rs, feats_before_failure infer bs = map (Array d) rs /\
             length rs = length bs.
Proof.
  induction bs as [|c bs IH]; intros H.
  - split; [reflexivity|]. exists []. auto.
  - destruct IH as (E1 & rs & E2 & E3); [intros b Hb; apply H; now right|].
    destruct (H c ltac:(now left)) as (r & Ec).
    split.
    + change (all_succeed infer (c :: bs))
        with ((match infer c with Some _ => true | None => false end)
              && all_succeed infer bs).
      now rewrite Ec, E1.
    + exists (r :: rs). cbn. rewrite Ec, E2, E3. auto.
Qed.

(** Where a stream of elements meets the stream that was put. *)
Lemma stream_sentinel (cons bs : list (list Item)) (qs : list (@qelem Item)) :
  map Some cons ++ None :: qs = sentinel_stream bs -> cons = bs /\ qs = [].
Proof.
  unfold sentinel_stream. revert bs.
  induction cons as [|c cons IH]; intros [|b bs]; cbn; intros E.
  - inversion E. auto.
  - discriminate.
  - discriminate.
  - inversion E. subst. destruct (IH bs) as [-> ->]; auto.
Qed.

Lemma stream_batch (cons bs : list (list Item)) (b : list Item)
      (qs : list (@qelem Item)) :
  map Some cons ++ Some b :: qs = sentinel_stream bs ->
  exists rest, bs = cons ++ b :: rest /\ qs = sentinel_stream rest.
Proof.
  unfold sentinel_stream. revert bs.
  induction cons as [|c cons IH]; intros [|b' bs]; cbn; intros E.
  - discriminate.
  - inversion E. subst. eauto.
  - discriminate.
  - inversion E. subst. destruct (IH bs) as (rest & -> & ->); eauto.
Qed.

Lemma stream_not_all_batches (cons bs : list (list Item)) :
  map Some cons <> sentinel_stream bs.
Proof.
  unfold sentinel_stream. revert bs.
  induction cons as [|c cons IH]; intros [|b bs]; cbn; intros E;
    try discriminate.
  inversion E. eapply IH; eassumption.
Qed.

End WorkerFacts.

(** ** Every interleaving of the two threads *)

Ltac split_and := repeat match goal with |- _ /\ _ => split end.

Ltac live_intro w qs :=
  exists w, qs; split; [reflexivity|split; [reflexivity|split; [|split]]].

Section PipelineFacts.

Context {Item Feat : Type}.
Variable infer : list Item -> option (ndarray Feat).
Variable quantize : Feat -> Feat.
Variable all_patches : list Item.
Variable batch_size : Z.
Variable qtz : bool.

Local Abbreviation mstep := (main_step quantize all_patches batch_size qtz).
Local Abbreviation wstep := (worker_step infer).
Local Abbreviation tstep := (thread_step infer quantize all_patches batch_size qtz).
Local Abbreviation runs_to := (run infer quantize all_patches batch_size qtz).
Local Abbreviation inv := (Inv infer quantize all_patches batch_size qtz).
Local Abbreviation live := (live_inv infer quantize all_patches batch_size qtz).
Local Abbreviation weight := (measure all_patches batch_size).
Local Abbreviation batches := (loop_batches all_patches batch_size).
Local Abbreviation state := (@state Item Feat).
Local Abbreviation well := (ended_well infer all_patches batch_size).
Local Abbreviation dead := (ended_dead infer all_patches batch_size).

Lemma inv_init : inv init.
Proof. unfold Inv. destruct loop_num; auto. Qed.

Lemma put_unbounded (qs : list (@qelem Item)) (x : @qelem Item) :
  put {| maxsize := 0; contents := qs |} x
  = Some {| maxsize := 0; contents := qs ++ [x] |}.
Proof. reflexivity. Qed.

Lemma live_main_step (ln : Z) (s s' : state) :
  live ln s -> mstep s = Some s' -> live ln s'.
Proof.
  intros (w & qs & Hq & Hw & Hpg & Hm & Hwi) Hstep.
  destruct s as [m q wt af p g r]. cbn in *. subst q wt.
  unfold main_step, main_inv in *. cbn in *.
  destruct m as [|ln0|ln0 [|i todo]| | |o]; try contradiction.
  - (* the poison pill *)
    destruct Hm as (-> & done & Hr & Hp).
    unfold main_put in Hstep. cbn in Hstep.
    injection Hstep as <-.
    live_intro w (qs ++ [@None (list Item)]); cbn.
    + rewrite Hpg. now rewrite app_assoc.
    + rewrite app_nil_r in Hr. unfold sentinel_stream, loop_batches.
      now rewrite Hr, Hp.
    + exact Hwi.
  - (* one batch *)
    destruct Hm as (-> & done & Hr & Hp).
    unfold main_put in Hstep. cbn in Hstep.
    injection Hstep as <-.
    live_intro w (qs ++ [Some (loop_slice all_patches batch_size ln i)]); cbn.
    + rewrite Hpg. now rewrite app_assoc.
    + split; [reflexivity|]. exists (done ++ [i]). split.
      * rewrite Hr. now rewrite <- app_assoc.
      * now rewrite Hp, !map_app.
    + exact Hwi.
  - (* the join *)
    destruct w; try discriminate; injection Hstep as <-.
    + live_intro (@WReturned Item) qs; cbn; auto.
    + live_intro (@WRaised Item) qs; cbn; auto.
  - (* the concatenation *)
    injection Hstep as <-. destruct Hm as [Hp Hd].
    live_intro w qs; cbn; auto.
  - discriminate.
Qed.

Lemma main_inv_worker (ln : Z) (w w' : worker_pc) (s1 s2 : state) :
  main s2 = main s1 -> puts s2 = puts s1 ->
  w <> WReturned -> w <> WRaised ->
  main_inv quantize all_patches batch_size qtz ln w s1 ->
  main_inv quantize all_patches batch_size qtz ln w' s2.
Proof.
  unfold main_inv. intros -> -> H1 H2.
  destruct (main s1); auto; intros H; exfalso; intuition congruence.
Qed.

Lemma live_worker_step (ln : Z) (s s' : state) :
  live ln s -> wstep s = Some s' -> live ln s'.
Proof.
  intros (w & qs & Hq & Hw & Hpg & Hm & cons & Hok & Hf & Hwi) Hstep.
  destruct s as [m q wt af p g r]. cbn in *. subst q wt.
  unfold worker_step in Hstep. cbn in Hstep.
  destruct w as [|[b|]| |].
  - (* get *)
    destruct qs as [|x rest]; [discriminate|]. cbn in Hstep.
    injection Hstep as <-. destruct Hwi as [-> ->].
    live_intro (WGot x) rest; cbn.
    + now rewrite Hpg, <- app_assoc.
    + eapply main_inv_worker; [| | | |exact Hm]; auto; discriminate.
    + exists cons. auto.
  - (* a batch: sess.run *)
    destruct Hwi as [-> ->].
    destruct (infer b) as [feat|] eqn:Eb; injection Hstep as <-.
    + live_intro (@WGet Item) qs; cbn.
      * exact Hpg.
      * eapply main_inv_worker; [| | | |exact Hm]; auto; discriminate.
      * exists (cons ++ [b]). cbn. split_and.
        -- eapply all_succeed_snoc; eassumption.
        -- rewrite Hf. symmetry. now apply feats_snoc.
        -- now rewrite map_app.
        -- reflexivity.
    + live_intro (@WRaised Item) qs; cbn.
      * exact Hpg.
      * eapply main_inv_worker; [| | | |exact Hm]; auto; discriminate.
      * exists cons. split_and; auto. exists b. auto.
  - (* the poison pill *)
    injection Hstep as <-. destruct Hwi as [-> ->].
    live_intro (@WReturned Item) qs; cbn.
    + exact Hpg.
    + eapply main_inv_worker; [| | | |exact Hm]; auto; discriminate.
    + exists cons. auto.
  - discriminate.
  - discriminate.
Qed.

Lemma inv_step (t : thread) (s s' : state) :
  inv s -> tstep t s = Some s' -> inv s'.
Proof.
  unfold Inv.
  destruct (loop_num (Z.of_nat (length all_patches)) batch_size)
    as [ln|e] eqn:E.
  - intros [-> | [-> | Hl]] Hstep.
    + destruct t; cbn in Hstep; [|discriminate].
      unfold main_step in Hstep. cbn in Hstep. rewrite E in Hstep.
      injection Hstep as <-. auto.
    + destruct t; cbn in Hstep; [|discriminate].
      injection Hstep as <-. right. right.
      live_intro (@WGet Item) (@nil (@qelem Item)); cbn.
      * reflexivity.
      * split; [reflexivity|]. exists []. auto.
      * exists []. cbn. auto.
    + right. right. destruct t; cbn in Hstep.
      * eapply live_main_step; eassumption.
      * eapply live_worker_step; eassumption.
  - intros [-> | ->] Hstep.
    + destruct t; cbn in Hstep; [|discriminate].
      unfold main_step in Hstep. cbn in Hstep. rewrite E in Hstep.
      injection Hstep as <-. auto.
    + destruct t; discriminate.
Qed.

Lemma inv_run (sched : list thread) (s s' : state) :
  inv s -> runs_to sched s = Some s' -> inv s'.
Proof.
  revert s. induction sched as [|t sched IH]; cbn; intros s Hs Hr.
  - now injection Hr as <-.
  - destruct (tstep t s) as [s1|] eqn:E; [|discriminate].
    eapply IH; [|eassumption]. eapply inv_step; eassumption.
Qed.

Lemma inv_reachable (sched : list thread) (s : state) :
  runs_to sched init = Some s -> inv s.
Proof. apply inv_run, inv_init. Qed.

(** *** Termination: every step uses up some of the measure *)

Lemma step_measure (t : thread) (s s' : state) :
  tstep t s = Some s' -> (weight s' < weight s)%nat.
Proof.
  destruct s as [m q wt af p g r]. destruct t; cbn.
  - unfold main_step, measure. cbn.
    destruct m as [|ln|ln [|i todo]| | |o].
    + cbn. destruct (loop_num (Z.of_nat (length all_patches)) batch_size);
        intros E; injection E as <-; cbn; lia.
    + intros E; injection E as <-; cbn.
      unfold py_range. rewrite length_map, length_seq. lia.
    + unfold main_put. cbn. destruct q as [q|]; [|discriminate].
      destruct (put q None) as [q'|] eqn:Eq; [|discriminate].
      intros E; injection E as <-. cbn.
      unfold put in Eq. destruct (is_full q); [discriminate|].
      injection Eq as <-. cbn. rewrite length_app. cbn. lia.
    + unfold main_put. cbn. destruct q as [q|]; [|discriminate].
      destruct (put q _) as [q'|] eqn:Eq; [|discriminate].
      intros E; injection E as <-. cbn.
      unfold put in Eq. destruct (is_full q); [discriminate|].
      injection Eq as <-. cbn. rewrite length_app. cbn. lia.
    + destruct wt as [[| | |]|]; try discriminate;
        intros E; injection E as <-; cbn; lia.
    + intros E; injection E as <-; cbn; lia.
    + discriminate.
  - unfold worker_step, measure. cbn.
    destruct wt as [[|[b|]| |]|]; try discriminate.
    + destruct q as [q|]; [|discriminate].
      unfold get. destruct q as [mx [|x rest]]; [discriminate|]. cbn.
      intros E; injection E as <-; cbn. lia.
    + destruct (infer b); intros E; injection E as <-; cbn; lia.
    + intros E; injection E as <-; cbn; lia.
Qed.

Lemma run_measure (sched : list thread) (s s' : state) :
  runs_to sched s = Some s' -> (length sched + weight s' <= weight s)%nat.
Proof.
  revert s. induction sched as [|t sched IH]; cbn; intros s Hr.
  - injection Hr as <-. lia.
  - destruct (tstep t s) as [s1|] eqn:E; [|discriminate].
    apply step_measure in E. apply IH in Hr. lia.
Qed.

(** *** Progress: a reachable state that is not final can move *)

Lemma inv_progress (s : state) :
  inv s -> is_done s = false -> exists t s', tstep t s = Some s'.
Proof.
  unfold Inv.
  destruct (loop_num (Z.of_nat (length all_patches)) batch_size)
    as [ln|e] eqn:E.
  - intros [-> | [-> | Hl]] Hd.
    + exists Main. cbn. unfold main_step. cbn. rewrite E. eauto.
    + exists Main. cbn. eauto.
    + destruct Hl as (w & qs & Hq & Hw & Hpg & Hm & cons & Hok & Hf & Hwi).
      destruct s as [m q wt af p g r]. cbn in *. subst q wt.
      unfold main_inv in Hm. cbn in Hm.
      destruct m as [|ln0|ln0 [|i todo]| | |o]; try contradiction.
      * exists Main. cbn. eauto.
      * exists Main. cbn. eauto.
      * destruct w as [|x| |].
        -- destruct qs as [|x rest].
           ++ exfalso. destruct Hwi as [Hg _]. rewrite app_nil_r in Hpg.
              rewrite Hm, Hg in Hpg. symmetry in Hpg.
              now apply stream_not_all_batches in Hpg.
           ++ exists Worker. cbn. unfold worker_step. cbn. eauto.
        -- exists Worker. cbn. unfold worker_step. cbn.
           destruct x as [b|]; [destruct (infer b)|]; eauto.
        -- exists Main. cbn. unfold main_step. cbn. eauto.
        -- exists Main. cbn. unfold main_step. cbn. eauto.
      * exists Main. cbn. unfold main_step. cbn. eauto.
      * discriminate.
  - intros [-> | ->] Hd.
    + exists Main. cbn. unfold main_step. cbn. rewrite E. eauto.
    + discriminate.
Qed.

(** *** The scheduler [exec] finishes, along a schedule *)

Lemma weight_zero_done (s : state) : inv s -> weight s = 0%nat -> is_done s = true.
Proof.
  intros Hi Hw. destruct (is_done s) eqn:Ed; [reflexivity|].
  destruct (inv_progress s Hi Ed) as (t & s' & Hs).
  apply step_measure in Hs. lia.
Qed.

Lemma exec_finishes (fuel : nat) (s : state) :
  inv s -> (weight s <= fuel)%nat ->
  is_done (exec infer quantize all_patches batch_size qtz fuel s) = true /\
  exists sched,
    runs_to sched s
    = Some (exec infer quantize all_patches batch_size qtz fuel s).
Proof.
  revert s. induction fuel as [|fuel IH]; intros s Hi Hw.
  - cbn. split; [apply weight_zero_done; [assumption|lia]|].
    exists []. reflexivity.
  - cbn. destruct (wstep s) as [s1|] eqn:Ew.
    + assert (Hs : tstep Worker s = Some s1) by exact Ew.
      pose proof (step_measure _ _ _ Hs).
      destruct (IH s1) as [Hd [sched Hr]];
        [eapply inv_step; eassumption|lia|].
      split; [assumption|]. exists (Worker :: sched). cbn. now rewrite Ew.
    + destruct (mstep s) as [s1|] eqn:Em.
      * assert (Hs : tstep Main s = Some s1) by exact Em.
        pose proof (step_measure _ _ _ Hs).
        destruct (IH s1) as [Hd [sched Hr]];
          [eapply inv_step; eassumption|lia|].
        split; [assumption|]. exists (Main :: sched). cbn. now rewrite Em.
      * split; [|exists []; reflexivity].
        destruct (is_done s) eqn:Ed; [reflexivity|].
        destruct (inv_progress s Hi Ed) as ([|] & s' & Hs); cbn in Hs;
          congruence.
Qed.

(** *** The final states *)

Lemma done_early (e : exn) (s : state) :
  loop_num (Z.of_nat (length all_patches)) batch_size = Raised e ->
  inv s -> s = init \/ s = set_main (MDone (Raised e)) init.
Proof. unfold Inv. now intros ->. Qed.

Lemma done_live (ln : Z) (s : state) :
  loop_num (Z.of_nat (length all_patches)) batch_size = Returned ln ->
  inv s -> is_done s = true ->
  outcome s = Some (finish quantize qtz (all_feat s)) /\
  (well ln s \/ dead ln s).
Proof.
  unfold Inv. intros -> [-> | [-> | Hl]] Hd; try discriminate.
  destruct Hl as (w & qs & Hq & Hw & Hpg & Hm & cons & Hok & Hf & Hwi).
  destruct s as [m q wt af p g r]. cbn in *. subst q wt.
  unfold main_inv in Hm. cbn in Hm.
  destruct m as [|ln0|ln0 todo| | |o]; try discriminate.
  destruct Hm as (Hp & Hw & ->). split; [reflexivity|].
  destruct Hw as [-> | ->].
  - left. destruct Hwi as [Hg Hr]. rewrite Hp in Hpg.
    rewrite Hg, <- app_assoc in Hpg. cbn in Hpg. symmetry in Hpg.
    apply stream_sentinel in Hpg. destruct Hpg as [-> ->].
    unfold ended_well. cbn. split_and; auto.
  - right. destruct Hwi as (b & Hb & Hg & Hr). rewrite Hp in Hpg.
    rewrite Hg, <- app_assoc in Hpg. cbn in Hpg. symmetry in Hpg.
    apply stream_batch in Hpg. destruct Hpg as (rest & Hbs & ->).
    exists cons, b, rest. cbn. split_and; auto.
    now rewrite map_app.
Qed.

Lemma ended_well_not_dead (ln : Z) (s : state) :
  well ln s -> dead ln s -> False.
Proof.
  intros (Hok & _) (cons & b & rest & Hbs & _ & Hb & _).
  rewrite Hbs, all_succeed_stop in Hok by assumption. discriminate.
Qed.

Lemma ended_feats (ln : Z) (s : state) :
  well ln s \/ dead ln s ->
  all_feat s = feats_before_failure infer (batches ln).
Proof.
  intros [(_ & _ & _ & _ & _ & _ & H) |
          (cons & b & rest & Hbs & Hok & Hb & _ & _ & _ & _ & _ & H)].
  - exact H.
  - rewrite H, Hbs. symmetry. now apply feats_stop.
Qed.

(** Whatever the interleaving, a finished call has the outcome
    [pipeline_outcome]. *)
Lemma done_outcome (s : state) :
  inv s -> is_done s = true ->
  outcome s = Some (pipeline_outcome infer quantize all_patches batch_size qtz).
Proof.
  intros Hi Hd. unfold pipeline_outcome.
  destruct (loop_num (Z.of_nat (length all_patches)) batch_size)
    as [ln|e] eqn:E.
  - destruct (done_live ln s E Hi Hd) as [Ho He].
    now rewrite Ho, (ended_feats ln s He).
  - destruct (done_early e s E Hi) as [-> | ->]; [discriminate|reflexivity].
Qed.

Lemma run_outcome (sched : list thread) (s : state) :
  runs_to sched init = Some s -> is_done s = true ->
  outcome s = Some (pipeline_outcome infer quantize all_patches batch_size qtz).
Proof. intros Hr. apply done_outcome. eapply inv_reachable, Hr. Qed.

Lemma extract_deep_features_outcome :
  extract_deep_features infer quantize all_patches batch_size qtz
  = Some (pipeline_outcome infer quantize all_patches batch_size qtz).
Proof.
  unfold extract_deep_features.
  destruct (exec_finishes (weight init) init inv_init (le_n _))
    as [Hd [sched Hr]].
  eapply run_outcome; eassumption.
Qed.

(** *** The histories at every reachable state *)

Lemma gets_tail (cons : list (list Item)) (t pre post : list (@qelem Item)) :
  (length t <= 1)%nat ->
  map Some cons ++ t = pre ++ None :: post -> post = [].
Proof.
  intros Ht. revert pre.
  induction cons as [|c cons IH]; intros [|a pre]; cbn; intros E.
  - destruct t as [|x [|y t]]; cbn in Ht; try discriminate; try lia.
    now inversion E.
  - destruct t as [|x [|y t]]; cbn in Ht; try discriminate; try lia.
    inversion E. destruct pre; discriminate.
  - discriminate.
  - inversion E. eapply IH; eassumption.
Qed.

Lemma worker_inv_gets (w : worker_pc) (s : state) :
  worker_inv infer w s ->
  exists cons t, gets s = map Some cons ++ t /\ (length t <= 1)%nat /\
                 (w = WReturned -> t = [None]).
Proof.
  intros (cons & _ & _ & H). exists cons.
  destruct w as [|x| |].
  - exists []. rewrite app_nil_r. intuition (auto; discriminate).
  - exists [x]. intuition (auto; discriminate).
  - exists [None]. intuition auto.
  - destruct H as (b & _ & H & _). exists [Some b].
    intuition (auto; discriminate).
Qed.

Lemma live_histories (ln : Z) (s : state) :
  live ln s ->
  (exists rest, puts s ++ rest = sentinel_stream (batches ln)) /\
  (exists qs, patch_queue s = Some {| maxsize := 0; contents := qs |} /\
              puts s = gets s ++ qs) /\
  (forall pre post, gets s = pre ++ None :: post -> post = []) /\
  (worker_thread s = Some WReturned ->
   exists cons, gets s = map Some cons ++ [None]).
Proof.
  intros (w & qs & Hq & Hw & Hpg & Hm & Hwi). split_and.
  - unfold main_inv in Hm.
    destruct (main s) as [|ln0|ln0 todo| | |o]; try contradiction.
    + destruct Hm as (-> & done & Hr & Hp).
      exists (map Some (map (loop_slice all_patches batch_size ln) todo)
              ++ [None]).
      unfold sentinel_stream, loop_batches.
      now rewrite Hp, Hr, !map_app, <- app_assoc.
    + exists []. now rewrite app_nil_r.
    + exists []. rewrite app_nil_r. tauto.
    + exists []. rewrite app_nil_r. tauto.
  - eauto.
  - destruct (worker_inv_gets w s Hwi) as (cons & t & Hg & Ht & _).
    intros pre post E. rewrite Hg in E. eapply gets_tail; eassumption.
  - intros Hr. rewrite Hw in Hr. injection Hr as ->.
    destruct (worker_inv_gets _ s Hwi) as (cons & t & Hg & _ & Ht).
    exists cons. now rewrite Hg, Ht.
Qed.

Lemma inv_live_or_fresh (ln : Z) (s : state) :
  loop_num (Z.of_nat (length all_patches)) batch_size = Returned ln ->
  inv s ->
  (patch_queue s = None /\ worker_thread s = None /\
   puts s = [] /\ gets s = [] /\ runs s = [] /\
   (main s = MInit \/ main s = MSetup ln)) \/
  live ln s.
Proof.
  unfold Inv. intros -> [-> | [-> | H]]; cbn; auto 10.
Qed.

(** *** The caller alone can put everything *)

Lemma main_alone (ln : Z) (todo : list Z) (s : state) (qs : list (@qelem Item)) :
  main s = MLoop ln todo ->
  patch_queue s = Some {| maxsize := 0; contents := qs |} ->
  exists s',
    runs_to (repeat Main (S (length todo))) s = Some s' /\
    main s' = MJoin /\
    puts s' = puts s
              ++ map Some (map (loop_slice all_patches batch_size ln) todo)
              ++ [None] /\
    gets s' = gets s /\ runs s' = runs s /\
    worker_thread s' = worker_thread s.
Proof.
  revert s qs. induction todo as [|i todo IH]; intros s qs Hm Hq.
  - destruct s as [m q wt af p g r]. cbn in Hm, Hq. subst m q.
    eexists. split; [reflexivity|]. cbn. auto.
  - destruct s as [m q wt af p g r]. cbn in Hm, Hq. subst m q.
    set (x := Some (loop_slice all_patches batch_size ln i)).
    set (s1 := mkState (MLoop ln todo)
                       (Some {| maxsize := 0; contents := qs ++ [x] |})
                       wt af (p ++ [x]) g r).
    destruct (IH s1 (qs ++ [x]) eq_refl eq_refl)
      as (s' & Hr & Hm' & Hp & Hg & Hru & Hw).
    exists s'. split; [exact Hr|].
    subst s1. cbn in Hp, Hg, Hru, Hw. cbn.
    rewrite Hp, <- app_assoc. auto.
Qed.

End PipelineFacts.

(** * The claims of the specification *)

(** ** The batch splitter *)

Lemma nth_windows {A : Type} (f : nat -> list A) (c k : nat) :
  (k < c)%nat -> nth k (map f (seq 0 c)) [] = f k.
Proof.
  intros Hk.
  rewrite (nth_indep _ [] (f 0%nat)) by (rewrite length_map, length_seq; lia).
  rewrite map_nth, seq_nth by lia. reflexivity.
Qed.

Lemma window_length {A : Type} (b k : nat) (l : list A) :
  length (firstn b (skipn (k * b) l)) = Nat.min b (length l - k * b).
Proof. now rewrite length_firstn, length_skipn. Qed.

(** C2 (amended).  For every input of N items and every batch_size,
    with N and batch_size below 2^53 and batch_size >= 1, the splitting
    step (lines 63-66 and 87-91) yields exactly ceil(N / batch_size)
    batches; batch k is the contiguous slice of the input that starts at
    k * batch_size and is batch_size long (clipped at the end of the
    input), so that the batches, concatenated in order, are the input:
    nothing overlaps, nothing is dropped.  Every batch but the last has
    batch_size items, and the last has N mod batch_size items, or
    batch_size when N is an exact multiple. *)
Theorem split_batches_partition :
  forall (A : Type) (items : list A) (batch_size : Z),
    1 <= batch_size < 2 ^ 53 ->
    Z.of_nat (length items) < 2 ^ 53 ->
    let n := Z.of_nat (length items) in
    exists bs : list (list A),
      split_batches items batch_size = Returned bs /\
      Z.of_nat (length bs) = ceil_div n batch_size /\
      (ceil_div n batch_size - 1) * batch_size < n
        <= ceil_div n batch_size * batch_size /\
      concat bs = items /\
      (forall k : nat, (k < length bs)%nat ->
         nth k bs [] = firstn (Z.to_nat batch_size)
                              (skipn (k * Z.to_nat batch_size) items)) /\
      (forall k : nat, (S k < length bs)%nat ->
         Z.of_nat (length (nth k bs [])) = batch_size) /\
      (forall k : nat, S k = length bs ->
         Z.of_nat (length (nth k bs []))
         = if n mod batch_size =? 0 then batch_size else n mod batch_size).
Proof.
  intros A items b Hb Hlt n.
  pose proof (ceil_div_bounds n b ltac:(lia)) as C.
  assert (Hn : 0 <= n < 2 ^ 53) by (subst n; lia).
  pose proof (ceil_div_nonneg n b ltac:(lia) ltac:(lia)) as Hc.
  exists (loop_batches items b (ceil_div n b - 1)).
  assert (Hlen : length (loop_batches items b (ceil_div n b - 1))
                 = Z.to_nat (ceil_div n b)).
  { rewrite loop_batches_length. f_equal. lia. }
  assert (Hnth : forall k : nat,
             (k < Z.to_nat (ceil_div n b))%nat ->
             nth k (loop_batches items b (ceil_div n b - 1)) []
             = firstn (Z.to_nat b) (skipn (k * Z.to_nat b) items)).
  { intros k Hk. subst n. rewrite loop_batches_windows by lia.
    now rewrite nth_windows. }
  rewrite Hlen. split_and.
  - unfold split_batches. fold n. now rewrite (loop_num_ceil n b Hn Hb).
  - lia.
  - apply C.
  - apply C.
  - apply loop_batches_concat. lia.
  - exact Hnth.
  - intros k Hk. rewrite Hnth by lia. rewrite window_length. fold n in C.
    subst n. nia.
  - intros k Hk. rewrite Hnth by lia. rewrite window_length.
    pose proof (Z.div_mod n b ltac:(lia)) as E.
    pose proof (Z.mod_pos_bound n b ltac:(lia)) as R.
    destruct (Z.eqb_spec (n mod b) 0) as [Hm|Hm].
    + assert (ceil_div n b = n / b) by (apply ceil_div_unique; nia).
      subst n. nia.
    + assert (ceil_div n b = n / b + 1) by (apply ceil_div_unique; nia).
      subst n. nia.
Qed.

(** At 2^53 items and a batch size of 2^53 + 1 the loop runs twice: one
    batch more than the ceiling. *)
Lemma one_batch_too_many {A : Type} (items : list A) :
  Z.of_nat (length items) = 2 ^ 53 ->
  exists bs : list (list A),
    split_batches items (2 ^ 53 + 1) = Returned bs /\
    length bs = 2%nat /\
    ceil_div (Z.of_nat (length items)) (2 ^ 53 + 1) = 1.
Proof.
  intros Hn. unfold split_batches. rewrite Hn.
  replace (loop_num (2 ^ 53) (2 ^ 53 + 1)) with (@Returned Z 1)
    by (vm_compute; reflexivity).
  eexists. split; [reflexivity|]. split.
  - now rewrite loop_batches_length.
  - vm_compute. reflexivity.
Qed.

(** C8 (amended).  For every N and batch_size below 2^53, with
    batch_size >= 1, the two-branch computation of [loop_num] equals
    ceil(N / batch_size) - 1, and the batches the loop enqueues are those
    of the ceiling-division BatchSplitter of the specification; 5 items by
    5 give one batch of 5, and 10 items by 4 give batches of sizes 4, 4
    and 2. *)
Theorem loop_num_refines_ceiling :
  forall (A : Type) (items : list A) (batch_size : Z),
    1 <= batch_size < 2 ^ 53 ->
    Z.of_nat (length items) < 2 ^ 53 ->
    loop_num (Z.of_nat (length items)) batch_size
    = Returned (ceil_div (Z.of_nat (length items)) batch_size - 1) /\
    split_batches items batch_size
    = Returned (BatchSplitter_spec items batch_size) /\
    split_batches five_patches 5 = Returned [five_patches] /\
    split_batches ten_patches 4
    = Returned [[1; 2; 3; 4]; [5; 6; 7; 8]; [9; 10]].
Proof.
  intros A items b Hb Hlt.
  assert (E : loop_num (Z.of_nat (length items)) b
              = Returned (ceil_div (Z.of_nat (length items)) b - 1))
    by (apply loop_num_ceil; lia).
  split_and.
  - exact E.
  - unfold split_batches. rewrite E. f_equal.
    now rewrite loop_batches_windows, BatchSplitter_spec_windows by lia.
  - vm_compute. reflexivity.
  - vm_compute. reflexivity.
Qed.

(** ** The pipeline *)

Section Claims.

Context {Item Feat : Type}.
Variable infer : list Item -> option (ndarray Feat).
Variable quantize : Feat -> Feat.
Variable all_patches : list Item.
Variable batch_size : Z.
Variable qtz : bool.

Local Abbreviation runs_to := (run infer quantize all_patches batch_size qtz).
Local Abbreviation tstep := (thread_step infer quantize all_patches batch_size qtz).
Local Abbreviation mstep := (main_step quantize all_patches batch_size qtz).
Local Abbreviation call := (extract_deep_features infer quantize all_patches batch_size qtz).
Local Abbreviation batches := (loop_batches all_patches batch_size).
Local Abbreviation num_patch := (Z.of_nat (length all_patches)).
Local Abbreviation state := (@state Item Feat).

(** Line 100-102 on arrays whose rows have one shape. *)
Lemma finish_uniform (d : list Z) (rs : list (list Feat)) :
  rs <> [] ->
  finish quantize qtz (map (Array d) rs)
  = Returned (Array d (if qtz then map quantize (concat rs) else concat rs)).
Proof.
  intros Hne. unfold finish. rewrite np_concatenate_uniform by assumption.
  destruct qtz; reflexivity.
Qed.

Lemma finish_raises (feats : list (ndarray Feat)) (e : exn) :
  finish quantize qtz feats = Raised e -> e = ValueError.
Proof.
  unfold finish. destruct (np_concatenate feats) eqn:E; [discriminate|].
  intros [= <-]. eapply np_concatenate_raises. exact E.
Qed.

(** With one or more patches, a positive batch_size, both below 2^53,
    and an inference that gives one feature per patch in rows of one
    shape, every interleaving ends with the features of the patches, in
    the order of the patches. *)
Theorem extract_itemwise_nonempty (d : list Z) (f : Item -> Feat) :
  all_patches <> [] -> 1 <= batch_size < 2 ^ 53 -> num_patch < 2 ^ 53 ->
  (forall b, infer b = Some (Array d (map f b))) ->
  let post := fun x => if qtz then quantize x else x in
  call = Some (Returned (Array d (map post (map f all_patches)))) /\
  forall sched s,
    runs_to sched init = Some s -> is_done s = true ->
    outcome s = Some (Returned (Array d (map post (map f all_patches)))).
Proof.
  intros Hne Hb Hlt Hf post.
  assert (E : pipeline_outcome infer quantize all_patches batch_size qtz
              = Returned (Array d (map post (map f all_patches)))).
  { unfold pipeline_outcome. rewrite loop_num_ceil by lia.
    destruct (feats_itemwise infer d f
                (batches (ceil_div num_patch batch_size - 1))) as [-> _];
      [intros; apply Hf|].
    pose proof (loop_batches_nonempty all_patches batch_size
                  ltac:(lia) Hne) as Hbs.
    pose proof (loop_batches_concat all_patches batch_size ltac:(lia)) as Hc.
    rewrite finish_uniform
      by (destruct (batches (ceil_div num_patch batch_size - 1));
          [contradiction|discriminate]).
    rewrite <- concat_map, Hc.
    subst post. destruct qtz; [reflexivity|]. now rewrite map_id. }
  split.
  - now rewrite extract_deep_features_outcome, E.
  - intros sched s Hr Hd. rewrite <- E. eapply run_outcome; eassumption.
Qed.

Lemma always_succeeds (bs : list (list Item)) :
  (forall b, infer b <> None) -> all_succeed infer bs = true.
Proof.
  intros H. apply forallb_forall. intros b _.
  destruct (infer b) eqn:E; [reflexivity|]. now apply H in E.
Qed.

Lemma not_in_batches (bs : list (list Item)) : ~ In None (map Some bs).
Proof. intros H. apply in_map_iff in H. destruct H as (b & E & _). discriminate. Qed.

(** A run whose loop has no iteration: only the poison pill goes
    through the queue, and line 100 has nothing to concatenate. *)
Lemma run_without_batches (ln : Z) (sched : list thread) (s : state) :
  loop_num num_patch batch_size = Returned ln -> ln + 1 <= 0 ->
  runs_to sched init = Some s ->
  (puts s = [] \/ puts s = [None]) /\
  (is_done s = true ->
   patch_queue s = Some {| maxsize := 0; contents := [] |} /\
   worker_thread s = Some WReturned /\
   puts s = [None] /\ gets s = [None] /\ runs s = [] /\ all_feat s = [] /\
   outcome s = Some (Raised ValueError)).
Proof.
  intros E Hln Hr. pose proof (inv_reachable _ _ _ _ _ _ _ Hr) as Hi.
  pose proof (loop_batches_nonpositive all_patches batch_size ln Hln) as Hb.
  split.
  - destruct (inv_live_or_fresh _ _ _ _ _ ln s E Hi) as [H | H].
    + left. tauto.
    + apply live_histories in H. destruct H as ((rest & H) & _).
      rewrite Hb in H. cbn in H.
      destruct (puts s) as [|x [|y p]]; auto.
      * inversion H. auto.
      * inversion H.
  - intros Hd.
    destruct (done_live _ _ _ _ _ ln s E Hi Hd) as [Ho [Hw | Hx]].
    + destruct Hw as (_ & Hq & Hw & Hp & Hg & Hru & Hf).
      rewrite Hb in *. cbn in *. rewrite Ho, Hf. auto 10.
    + destruct Hx as (cons & b & rest & Hbs & _).
      rewrite Hb in Hbs. destruct cons; discriminate.
Qed.

(** The call when the loop has no iteration. *)
Lemma call_without_batches (ln : Z) :
  loop_num num_patch batch_size = Returned ln -> ln + 1 <= 0 ->
  call = Some (Raised ValueError).
Proof.
  intros E Hln. rewrite extract_deep_features_outcome. unfold pipeline_outcome.
  rewrite E, loop_batches_nonpositive by assumption. reflexivity.
Qed.

(** C3 (amended).  When [sess.run] raises on a batch [b] and has
    succeeded on the batches [cons] before it, the call still comes to an
    end, under the scheduler and under every interleaving: a run has at
    most [measure init] steps and a state that is not final can take a
    step; in particular the join goes through on the dead worker.  The
    worker has stopped at [b]: each of [cons] and then [b] went through
    [sess.run] once and in order (no retry, no skip), nothing after [b] is
    taken from the queue (the later batches and the Sentinel stay in it).
    The failure is not surfaced: the outcome of the call is that of
    lines 100-102 on the features of [cons].  That is a ValueError when
    [cons] is empty, and the truncated result, the rows of the features of
    [cons], when [cons] is not empty and these features have rows of one
    shape. *)
Theorem inference_failure_truncates
        (ln : Z) (cons rest : list (list Item)) (b : list Item) :
  loop_num num_patch batch_size = Returned ln ->
  batches ln = cons ++ b :: rest ->
  all_succeed infer cons = true ->
  infer b = None ->
  call = Some (finish quantize qtz (feats_before_failure infer cons)) /\
  (forall sched s,
     runs_to sched init = Some s ->
     (length sched <= measure all_patches batch_size (@init Item Feat))%nat /\
     (is_done s = false -> exists t s', tstep t s = Some s') /\
     (main s = MJoin -> worker_thread s = Some WRaised ->
      mstep s = Some (set_main MConcat s)) /\
     (is_done s = true ->
      worker_thread s = Some WRaised /\
      runs s = cons ++ [b] /\
      gets s = map Some (cons ++ [b]) /\
      patch_queue s
      = Some {| maxsize := 0; contents := sentinel_stream rest |} /\
      all_feat s = feats_before_failure infer cons /\
      outcome s
      = Some (finish quantize qtz (feats_before_failure infer cons)))) /\
  (cons = [] -> call = Some (Raised ValueError)) /\
  (forall d rs,
     cons <> [] ->
     feats_before_failure infer cons = map (Array d) rs ->
     call = Some (Returned (Array d (if qtz then map quantize (concat rs)
                                     else concat rs)))).
Proof.
  intros E Hbs Hok Hb.
  assert (Hcall : call = Some (finish quantize qtz
                                 (feats_before_failure infer cons))).
  { rewrite extract_deep_features_outcome. unfold pipeline_outcome.
    now rewrite E, Hbs, feats_stop. }
  split_and.
  - exact Hcall.
  - intros sched s Hr.
    pose proof (inv_reachable _ _ _ _ _ _ _ Hr) as Hi. split_and.
    + pose proof (run_measure _ _ _ _ _ _ _ _ Hr). lia.
    + now apply inv_progress.
    + intros Hm Hw. unfold main_step. now rewrite Hm, Hw.
    + intros Hd.
      destruct (done_live _ _ _ _ _ ln s E Hi Hd) as [Ho [Hw | Hx]].
      * destruct Hw as (Hall & _).
        rewrite Hbs, all_succeed_stop in Hall by assumption. discriminate.
      * destruct Hx as (cons' & b' & rest' & Hbs' & Hok' & Hb' & Hq & Hw
                        & Hp & Hg & Hru & Hf).
        assert (Hc : cons' ++ [b'] = cons ++ [b]).
        { rewrite <- (consumed_stop infer cons' rest' b' Hok' Hb'), <- Hbs'.
          rewrite Hbs. now apply consumed_stop. }
        apply app_inj_tail in Hc. destruct Hc as [-> ->].
        rewrite Hbs in Hbs'. apply app_inv_head in Hbs'.
        injection Hbs' as <-.
        rewrite Ho, Hf. split_and; auto.
  - intros ->. rewrite Hcall. reflexivity.
  - intros d rs Hne Hrs. rewrite Hcall, Hrs. f_equal.
    apply finish_uniform. intros ->.
    apply (f_equal (@length _)) in Hrs.
    rewrite feats_length in Hrs by assumption.
    destruct cons; [contradiction|discriminate].
Qed.

(** C5 (amended).  The code has no check of batch_size.  With
    batch_size = 0 the call fails at once, by the ZeroDivisionError of
    the modulo of line 63: at no point of the run is there a queue or a
    worker, and nothing is ever put.  With batch_size < 0, on an array
    (which has fewer than 2^63 rows), the call goes ahead: the queue is
    created and the worker started, the loop puts no batch, the Sentinel
    is put and taken, the worker returns, and the call fails only after
    the join, at line 100, with the ValueError of a concatenation of no
    array. *)
Theorem nonpositive_batch_size :
  batch_size <= 0 ->
  forall sched s,
    runs_to sched init = Some s ->
    (batch_size = 0 ->
     patch_queue s = None /\ worker_thread s = None /\ puts s = [] /\
     (is_done s = true -> outcome s = Some (Raised ZeroDivisionError)) /\
     call = Some (Raised ZeroDivisionError)) /\
    (batch_size < 0 -> num_patch < 2 ^ 63 ->
     (puts s = [] \/ puts s = [None]) /\
     (is_done s = true ->
      patch_queue s = Some {| maxsize := 0; contents := [] |} /\
      worker_thread s = Some WReturned /\
      puts s = [None] /\ gets s = [None] /\ runs s = [] /\
      outcome s = Some (Raised ValueError)) /\
     call = Some (Raised ValueError)).
Proof.
  intros Hb sched s Hr.
  pose proof (inv_reachable _ _ _ _ _ _ _ Hr) as Hi.
  split.
  - intros ->.
    destruct (done_early _ _ _ _ _ ZeroDivisionError s
                         (loop_num_zero num_patch) Hi) as [-> | ->];
      cbn; split_and; auto; try discriminate;
      rewrite extract_deep_features_outcome; unfold pipeline_outcome;
      now rewrite loop_num_zero.
  - intros Hneg Hlt.
    destruct (loop_num_negative num_patch batch_size ltac:(lia) Hneg)
      as (ln & E & Hln).
    destruct (run_without_batches ln sched s E Hln Hr) as [Hp Hdone].
    split_and.
    + exact Hp.
    + intros Hd. destruct (Hdone Hd) as (? & ? & ? & ? & ? & ? & ?).
      auto 10.
    + eapply call_without_batches; eassumption.
Qed.

(** C6 (amended).  In every run that gets past line 66 ([loop_num] is
    computed: batch_size is not 0 and nothing is too large for a float),
    at every point: what has been put is a prefix of the batches
    followed by one Sentinel, so that once the call is over exactly one
    Sentinel has been put, last; the worker gets elements in the order
    they were put; nothing is got after a Sentinel; and the worker has
    returned only by getting the Sentinel.  When the call is over, the
    worker has got everything up to and including the one Sentinel if
    [sess.run] succeeded on every batch; if it raised on some batch the
    worker has ended on that batch and got no Sentinel at all. *)
Theorem sentinel_protocol (ln : Z) :
  loop_num num_patch batch_size = Returned ln ->
  forall sched s,
    runs_to sched init = Some s ->
    (exists rest, puts s ++ rest = sentinel_stream (batches ln)) /\
    (exists qs, puts s = gets s ++ qs) /\
    (forall pre post, gets s = pre ++ None :: post -> post = []) /\
    (worker_thread s = Some WReturned ->
     exists cons, gets s = map Some cons ++ [None]) /\
    (is_done s = true ->
     puts s = sentinel_stream (batches ln) /\
     (all_succeed infer (batches ln) = true ->
      gets s = sentinel_stream (batches ln) /\
      worker_thread s = Some WReturned) /\
     (all_succeed infer (batches ln) = false ->
      ~ In None (gets s) /\ worker_thread s = Some WRaised)).
Proof.
  intros E sched s Hr.
  pose proof (inv_reachable _ _ _ _ _ _ _ Hr) as Hi.
  assert (H4 : (exists rest, puts s ++ rest = sentinel_stream (batches ln)) /\
               (exists qs, puts s = gets s ++ qs) /\
               (forall pre post, gets s = pre ++ None :: post -> post = []) /\
               (worker_thread s = Some WReturned ->
                exists cons, gets s = map Some cons ++ [None])).
  { destruct (inv_live_or_fresh _ _ _ _ _ ln s E Hi)
      as [(Hq & Hw & Hp & Hg & _) | H].
    - rewrite Hp, Hg, Hw. split_and.
      + eexists. reflexivity.
      + exists []. reflexivity.
      + intros [|a pre] post H; discriminate.
      + discriminate.
    - apply live_histories in H.
      destruct H as (H1 & (qs & _ & H2) & H3 & H4). eauto. }
  destruct H4 as (H1 & H2 & H3 & H4). split_and; auto.
  intros Hd.
  destruct (done_live _ _ _ _ _ ln s E Hi Hd) as [Ho [Hw | Hx]].
  - destruct Hw as (Hall & _ & Hw & Hp & Hg & _). split_and; auto.
    rewrite Hall. discriminate.
  - destruct Hx as (cons & b & rest & Hbs & Hok & Hb & _ & Hw & Hp & Hg & _).
    split_and; auto.
    + rewrite Hbs, all_succeed_stop by assumption. discriminate.
    + intros _. split; [|assumption]. rewrite Hg. apply not_in_batches.
Qed.

(** C7 at the empty input.  For every input and every positive
    batch_size, when [sess.run] never raises, the call comes to an end
    under every interleaving of the two threads: a run has at most
    [measure init] steps, a state that is not final can always take a
    step (neither thread waits for ever), and in a final state of a run
    that got past line 66 the worker has left its loop by the Sentinel
    after getting everything and the join has completed.  But the call
    does not always return: on an input of no patch it ends by raising
    the ValueError of line 100.  It returns an array on every input of at
    least one patch, with sizes below 2^53, when the arrays that
    [sess.run] gives have rows of one shape. *)
Theorem extraction_terminates_raising_on_empty :
  1 <= batch_size ->
  (forall b, infer b <> None) ->
  (forall sched s,
     runs_to sched init = Some s ->
     (length sched <= measure all_patches batch_size (@init Item Feat))%nat /\
     (is_done s = false -> exists t s', tstep t s = Some s') /\
     (is_done s = true ->
      forall ln, loop_num num_patch batch_size = Returned ln ->
      worker_thread s = Some WReturned /\
      gets s = sentinel_stream (batches ln) /\
      patch_queue s = Some {| maxsize := 0; contents := [] |})) /\
  (exists o, call = Some o) /\
  (all_patches = [] -> call = Some (Raised ValueError)) /\
  (forall d,
     all_patches <> [] -> batch_size < 2 ^ 53 -> num_patch < 2 ^ 53 ->
     (forall b, exists r, infer b = Some (Array d r)) ->
     exists r, call = Some (Returned r)).
Proof.
  intros Hb Hinf. split_and.
  - intros sched s Hr.
    pose proof (inv_reachable _ _ _ _ _ _ _ Hr) as Hi. split_and.
    + pose proof (run_measure _ _ _ _ _ _ _ _ Hr). lia.
    + now apply inv_progress.
    + intros Hd ln E.
      destruct (done_live _ _ _ _ _ _ s E Hi Hd) as [Ho [Hw | Hx]].
      * destruct Hw as (_ & Hq & Hw & _ & Hg & _). auto.
      * destruct Hx as (cons & b & rest & _ & _ & Hb' & _).
        now apply Hinf in Hb'.
  - eexists. apply extract_deep_features_outcome.
  - intros Hnil. apply (call_without_batches (-1)); [|lia].
    rewrite Hnil. apply loop_num_empty. lia.
  - intros d Hne Hb53 Hlt Hd.
    rewrite extract_deep_features_outcome. unfold pipeline_outcome.
    rewrite loop_num_ceil by lia.
    destruct (feats_uniform infer d
                (batches (ceil_div num_patch batch_size - 1)))
      as (_ & rs & -> & Hlen); [intros; apply Hd|].
    pose proof (loop_batches_nonempty all_patches batch_size
                  ltac:(lia) Hne) as Hbs.
    rewrite finish_uniform; [eauto|].
    intros ->. apply Hbs. now apply length_zero_iff_nil.
Qed.

(** C9.  The queue is the unbounded one, and wherever the caller
    stands in the enqueue loop, with whatever the worker has or has not
    done, its next put is enabled; indeed the caller alone, without one
    step of the worker, can put every remaining batch and the Sentinel
    and reach the join. *)
Theorem enqueue_never_blocks :
  forall sched s ln todo,
    runs_to sched init = Some s ->
    main s = MLoop ln todo ->
    (exists qs, patch_queue s = Some {| maxsize := 0; contents := qs |}) /\
    (exists s1, mstep s = Some s1 /\ length (puts s1) = S (length (puts s))) /\
    (exists s',
       runs_to (repeat Main (S (length todo))) s = Some s' /\
       main s' = MJoin /\
       puts s' = sentinel_stream (batches ln) /\
       gets s' = gets s /\ runs s' = runs s /\
       worker_thread s' = worker_thread s).
Proof.
  intros sched s ln todo Hr Hm.
  pose proof (inv_reachable _ _ _ _ _ _ _ Hr) as Hi.
  assert (Hl : live_inv infer quantize all_patches batch_size qtz ln s).
  { unfold Inv in Hi.
    destruct (loop_num num_patch batch_size) as [ln0|e].
    - destruct Hi as [-> | [-> | Hl]]; try discriminate.
      assert (ln = ln0); [|now subst].
      destruct Hl as (w & qs & _ & _ & _ & Hmi & _).
      unfold main_inv in Hmi. rewrite Hm in Hmi. tauto.
    - destruct Hi as [-> | ->]; discriminate. }
  destruct Hl as (w & qs & Hq & Hw & Hpg & Hmi & Hwi).
  unfold main_inv in Hmi. rewrite Hm in Hmi.
  destruct Hmi as (_ & done & Hrange & Hp).
  split_and.
  - eauto.
  - unfold main_step, main_put. rewrite Hm, Hq.
    destruct todo; cbn; eexists; (split; [reflexivity|]); cbn;
      rewrite length_app; cbn; lia.
  - destruct (main_alone infer quantize all_patches batch_size qtz
                         ln todo s qs Hm Hq)
      as (s' & Hr' & Hm' & Hp' & Hg' & Hru' & Hw').
    exists s'. split_and; auto.
    rewrite Hp', Hp. unfold sentinel_stream, loop_batches.
    now rewrite Hrange, !map_app, <- app_assoc.
Qed.

Lemma loop_slice_is_slice (ln i : Z) :
  exists lo hi, loop_slice all_patches batch_size ln i = py_slice all_patches lo hi.
Proof. unfold loop_slice. destruct (i <? ln); eauto. Qed.

(** C10.  Every element put before the Sentinel is a slice of the
    input array, never [None]: in the history of puts, position [k]
    holds [None] exactly when [k] is the number of batches, and every
    earlier position holds a slice.  The worker's test therefore ends
    the loop on the Sentinel and on nothing else: from [WGot x] it
    returns exactly when [x] is [None]. *)
Theorem batches_never_none (ln : Z) :
  loop_num num_patch batch_size = Returned ln ->
  forall sched s,
    runs_to sched init = Some s ->
    (forall k x,
       nth_error (puts s) k = Some x ->
       ((k < length (batches ln))%nat ->
        exists lo hi, x = Some (py_slice all_patches lo hi)) /\
       (x = None <-> k = length (batches ln))) /\
    (forall x s',
       worker_thread s = Some (WGot x) ->
       worker_step infer s = Some s' ->
       (worker_thread s' = Some WReturned <-> x = None)).
Proof.
  intros E sched s Hr.
  pose proof (inv_reachable _ _ _ _ _ _ _ Hr) as Hi.
  split.
  - intros k x Hk.
    assert (Hs : nth_error (sentinel_stream (batches ln)) k = Some x).
    { destruct (inv_live_or_fresh _ _ _ _ _ ln s E Hi)
        as [(_ & _ & Hp & _) | H].
      - rewrite Hp in Hk. destruct k; discriminate.
      - apply live_histories in H. destruct H as ((rest & H) & _).
        rewrite <- H, nth_error_app1; [assumption|].
        apply nth_error_Some. congruence. }
    unfold sentinel_stream in Hs.
    destruct (Nat.lt_ge_cases k (length (batches ln))) as [Hlt|Hge].
    + rewrite nth_error_app1 in Hs by now rewrite length_map.
      rewrite nth_error_map in Hs.
      destruct (nth_error (batches ln) k) as [b|] eqn:Eb; [|discriminate].
      injection Hs as <-. split.
      * intros _. apply nth_error_In in Eb. unfold loop_batches in Eb.
        apply in_map_iff in Eb. destruct Eb as (i & <- & _).
        destruct (loop_slice_is_slice ln i) as (lo & hi & ->). eauto.
      * split; [discriminate|lia].
    + rewrite nth_error_app2 in Hs by now rewrite length_map.
      rewrite length_map in Hs.
      destruct (k - length (batches ln))%nat as [|[|j]] eqn:Ej;
        cbn in Hs; try discriminate.
      injection Hs as <-. split; [lia|]. split; [lia|reflexivity].
  - intros x s' Hw Hstep. unfold worker_step in Hstep. rewrite Hw in Hstep.
    destruct x as [b|].
    + destruct (infer b); injection Hstep as <-; cbn;
        split; intros H; discriminate.
    + injection Hstep as <-. cbn. tauto.
Qed.

End Claims.

(** ** The empty input *)

(** C4.  On an empty input, for every batch_size >= 1 and whatever the
    interleaving, the loop puts no batch, the Sentinel is put and got and
    the worker returns; but [all_feat] is then empty and line 100 raises
    ValueError: the call does not return an empty result. *)
Theorem empty_input_raises :
  forall (Item Feat : Type) (infer : list Item -> option (ndarray Feat))
         (quantize : Feat -> Feat) (batch_size : Z) (qtz : bool),
    1 <= batch_size ->
    forall sched s,
      run infer quantize [] batch_size qtz sched init = Some s ->
      is_done s = true ->
      puts s = [None] /\ gets s = [None] /\
      worker_thread s = Some WReturned /\
      runs s = [] /\ all_feat s = [] /\
      outcome s = Some (Raised ValueError).
Proof.
  intros Item Feat infer quantize b qtz Hb sched s Hr Hd.
  assert (E : loop_num (Z.of_nat (length (@nil Item))) b = Returned (-1)).
  { change (Z.of_nat (length (@nil Item))) with 0.
    apply loop_num_empty. lia. }
  destruct (run_without_batches infer quantize [] b qtz (-1) sched s
                                E ltac:(lia) Hr) as [_ H].
  destruct (H Hd) as (? & ? & ? & ? & ? & ? & ?). auto 10.
Qed.

(** C1 at the empty input.  With an inference that gives one feature per
    patch and the default batch size 512, the call on no patch raises
    ValueError instead of returning the empty result. *)
Theorem itemwise_empty_input_raises :
  forall (Item Feat : Type) (f : Item -> Feat) (d : list Z)
         (quantize : Feat -> Feat) (qtz : bool),
    extract_deep_features (fun b => Some (Array d (map f b))) quantize
                          [] 512 qtz
    = Some (Raised ValueError).
Proof. intros. vm_compute. reflexivity. Qed.

(** ** Counterexamples *)

(** C2 as stated fails: five patches with a batch size of 2^1024.  The
    remainder of line 63 is 5, and [float(FLAGS.batch_size)] on line 64
    raises OverflowError, where one batch is due. *)
Lemma split_batches_partition_counterexample :
  1 <= 2 ^ 1024 /\
  ceil_div (Z.of_nat (length five_patches)) (2 ^ 1024) = 1 /\
  py_mod (Z.of_nat (length five_patches)) (2 ^ 1024) = Returned 5 /\
  float_of_int (2 ^ 1024) = Raised OverflowError /\
  split_batches five_patches (2 ^ 1024) = Raised OverflowError.
Proof. split; [lia|]. split_and; vm_compute; reflexivity. Qed.

(** C8 as stated fails: at N = 2^53 and batch_size = 2^53 + 1 both
    floats of line 64 are 2^53 and [loop_num] is 1, not
    ceil(N / batch_size) - 1 = 0; at N = 5 and batch_size = 2^1024 line 64
    raises. *)
Lemma loop_num_refines_ceiling_counterexample :
  1 <= 2 ^ 53 + 1 /\
  float_of_int (2 ^ 53) = float_of_int (2 ^ 53 + 1) /\
  loop_num (2 ^ 53) (2 ^ 53 + 1) = Returned 1 /\
  ceil_div (2 ^ 53) (2 ^ 53 + 1) - 1 = 0 /\
  loop_num 5 (2 ^ 1024) = Raised OverflowError /\
  ceil_div 5 (2 ^ 1024) - 1 = 0.
Proof. split; [lia|]. split_and; vm_compute; reflexivity. Qed.

(** C3 as stated fails: five patches by two, [sess.run] raising on the
    third batch; the call returns the features of the first four
    patches. *)
Lemma inference_failure_counterexample :
  split_batches five_patches 2 = Returned [[1; 2]; [3; 4]; [5]] /\
  fails_on_five [5] = None /\
  extract_deep_features fails_on_five quantize_z five_patches 2 false
  = Some (Returned (Array [] [2; 4; 6; 8])).
Proof. split_and; vm_compute; reflexivity. Qed.

(** C5 as stated fails: with batch_size = -1, three steps of the caller
    have created the queue, started the worker and put the Sentinel. *)
Lemma nonpositive_batch_size_counterexample :
  let s := state_after double_each quantize_z five_patches (-1) false
                       [Main; Main; Main] in
  -1 <= 0 /\
  run double_each quantize_z five_patches (-1) false [Main; Main; Main] init
  = Some s /\
  patch_queue s = Some {| maxsize := 0; contents := [None] |} /\
  worker_thread s = Some WGet /\
  puts s = [None].
Proof. cbv zeta. split; [lia|]. split_and; vm_compute; reflexivity. Qed.

(** C6 as stated fails: when [sess.run] raises on the third batch the
    call ends with a worker that has got no Sentinel. *)
Lemma sentinel_protocol_counterexample :
  let s := state_after fails_on_five quantize_z five_patches 2 false
                       sched_third_fails in
  run fails_on_five quantize_z five_patches 2 false sched_third_fails init
  = Some s /\
  is_done s = true /\
  puts s = [Some [1; 2]; Some [3; 4]; Some [5]; None] /\
  gets s = [Some [1; 2]; Some [3; 4]; Some [5]] /\
  worker_thread s = Some WRaised.
Proof. cbv zeta. split_and; vm_compute; reflexivity. Qed.

(** ** The theorems at concrete inputs *)

Lemma split_batches_partition_witness :
  1 <= 4 < 2 ^ 53 /\
  Z.of_nat (length ten_patches) < 2 ^ 53 /\
  exists bs : list (list Z),
    split_batches ten_patches 4 = Returned bs /\
    Z.of_nat (length bs) = ceil_div 10 4 /\
    concat bs = ten_patches.
Proof.
  split; [lia|]. split; [cbn; lia|].
  destruct (split_batches_partition Z ten_patches 4 ltac:(lia)
                                    ltac:(cbn; lia))
    as (bs & H1 & H2 & _ & H3 & _).
  exists bs. auto.
Defined.

Lemma loop_num_refines_ceiling_witness :
  1 <= 4 < 2 ^ 53 /\
  Z.of_nat (length ten_patches) < 2 ^ 53 /\
  loop_num 10 4 = Returned (ceil_div 10 4 - 1) /\
  split_batches ten_patches 4 = Returned (BatchSplitter_spec ten_patches 4).
Proof.
  split; [lia|]. split; [cbn; lia|].
  destruct (loop_num_refines_ceiling Z ten_patches 4 ltac:(lia)
                                     ltac:(cbn; lia))
    as (H1 & H2 & _).
  auto.
Defined.

Lemma inference_failure_truncates_witness :
  let s := state_after fails_on_five quantize_z five_patches 2 false
                       sched_third_fails in
  loop_num 5 2 = Returned 2 /\
  loop_batches five_patches 2 2 = [[1; 2]; [3; 4]] ++ [5] :: [] /\
  fails_on_five [5] = None /\
  extract_deep_features fails_on_five quantize_z five_patches 2 false
  = Some (Returned (Array [] (concat [[2; 4]; [6; 8]]))) /\
  (length sched_third_fails <= measure five_patches 2 (@init Z Z))%nat /\
  worker_thread s = Some WRaised /\
  runs s = [[1; 2]; [3; 4]] ++ [[5]] /\
  gets s = map Some ([[1; 2]; [3; 4]] ++ [[5]]).
Proof.
  cbv zeta.
  split; [vm_compute; reflexivity|]. split; [vm_compute; reflexivity|].
  split; [vm_compute; reflexivity|].
  destruct (inference_failure_truncates
              fails_on_five quantize_z five_patches 2 false
              2 [[1; 2]; [3; 4]] [] [5]
              ltac:(vm_compute; reflexivity) ltac:(vm_compute; reflexivity)
              ltac:(vm_compute; reflexivity) ltac:(vm_compute; reflexivity))
    as (_ & Hruns & _ & Hret).
  split.
  - apply (Hret [] [[2; 4]; [6; 8]]); [discriminate|vm_compute; reflexivity].
  - destruct (Hruns sched_third_fails _ ltac:(vm_compute; reflexivity))
      as (H1 & _ & _ & H2).
    destruct (H2 ltac:(vm_compute; reflexivity)) as (H3 & H4 & H5 & _).
    auto.
Defined.

Lemma empty_input_raises_witness :
  let s := state_after double_each quantize_z [] 512 false sched_no_batch in
  1 <= 512 /\
  run double_each quantize_z [] 512 false sched_no_batch init = Some s /\
  is_done s = true /\
  puts s = [None] /\ gets s = [None] /\
  worker_thread s = Some WReturned /\
  runs s = [] /\ all_feat s = [] /\
  outcome s = Some (Raised ValueError).
Proof.
  cbv zeta. split; [lia|].
  split; [vm_compute; reflexivity|]. split; [vm_compute; reflexivity|].
  apply (empty_input_raises Z Z double_each quantize_z 512 false ltac:(lia)
                            sched_no_batch);
    vm_compute; reflexivity.
Defined.

Lemma nonpositive_batch_size_witness :
  let s0 := state_after double_each quantize_z five_patches 0 false [Main] in
  let s1 := state_after double_each quantize_z five_patches (-1) false
                        sched_no_batch in
  (patch_queue s0 = None /\ worker_thread s0 = None /\ puts s0 = [] /\
   outcome s0 = Some (Raised ZeroDivisionError)) /\
  Z.of_nat (length five_patches) < 2 ^ 63 /\
  (puts s1 = [None] /\ worker_thread s1 = Some WReturned /\
   outcome s1 = Some (Raised ValueError)).
Proof.
  cbv zeta. split; [|split; [cbn; lia|]].
  - destruct (nonpositive_batch_size double_each quantize_z five_patches 0
                false ltac:(lia) [Main] _ ltac:(vm_compute; reflexivity))
      as [H _].
    destruct (H eq_refl) as (H1 & H2 & H3 & H4 & _).
    split_and; try assumption. apply H4. vm_compute. reflexivity.
  - destruct (nonpositive_batch_size double_each quantize_z five_patches (-1)
                false ltac:(lia) sched_no_batch _
                ltac:(vm_compute; reflexivity))
      as [_ H].
    destruct (H ltac:(lia) ltac:(cbn; lia)) as (_ & H1 & _).
    destruct (H1 ltac:(vm_compute; reflexivity))
      as (_ & H2 & H3 & _ & _ & H4).
    auto.
Defined.

Lemma sentinel_protocol_witness :
  let s := state_after double_each quantize_z five_patches 2 false
                       sched_three_batches in
  loop_num 5 2 = Returned 2 /\
  puts s = sentinel_stream (loop_batches five_patches 2 2) /\
  gets s = sentinel_stream (loop_batches five_patches 2 2) /\
  worker_thread s = Some WReturned.
Proof.
  cbv zeta. split; [vm_compute; reflexivity|].
  destruct (sentinel_protocol double_each quantize_z five_patches 2 false 2
              ltac:(vm_compute; reflexivity) sched_three_batches _
              ltac:(vm_compute; reflexivity))
    as (_ & _ & _ & _ & H).
  destruct (H ltac:(vm_compute; reflexivity)) as (H1 & H2 & _).
  destruct (H2 ltac:(vm_compute; reflexivity)) as (H3 & H4).
  auto.
Defined.

Lemma extraction_terminates_raising_on_empty_witness :
  1 <= 512 /\
  (forall b, double_each b <> None) /\
  extract_deep_features double_each quantize_z [] 512 false
  = Some (Raised ValueError) /\
  (exists r, extract_deep_features double_each quantize_z five_patches 512
                                   false = Some (Returned r)).
Proof.
  split; [lia|]. split; [intros b; discriminate|].
  destruct (extraction_terminates_raising_on_empty
              double_each quantize_z [] 512 false
              ltac:(lia) ltac:(intros b; discriminate))
    as (_ & _ & H1 & _).
  destruct (extraction_terminates_raising_on_empty
              double_each quantize_z five_patches 512 false
              ltac:(lia) ltac:(intros b; discriminate))
    as (_ & _ & _ & H2).
  split; [exact (H1 eq_refl)|].
  apply (H2 []); [discriminate|lia|cbn; lia|].
  intros b. eexists. reflexivity.
Defined.

Lemma enqueue_never_blocks_witness :
  let s := state_after double_each quantize_z five_patches 2 false
                       sched_two_puts in
  main s = MLoop 2 [2] /\
  (exists s1, main_step quantize_z five_patches 2 false s = Some s1 /\
              length (puts s1) = S (length (puts s))) /\
  (exists s',
     run double_each quantize_z five_patches 2 false [Main; Main] s = Some s' /\
     main s' = MJoin /\ gets s' = gets s).
Proof.
  cbv zeta. split; [vm_compute; reflexivity|].
  destruct (enqueue_never_blocks double_each quantize_z five_patches 2 false
              sched_two_puts _ 2 [2]
              ltac:(vm_compute; reflexivity) ltac:(vm_compute; reflexivity))
    as (_ & H1 & s' & H2 & H3 & _ & H4 & _).
  split; [exact H1|]. exists s'. auto.
Defined.

Lemma batches_never_none_witness :
  let s := state_after double_each quantize_z five_patches 2 false
                       sched_three_batches in
  loop_num 5 2 = Returned 2 /\
  nth_error (puts s) 3 = Some None /\
  (@None (list Z) = None <-> 3%nat = length (loop_batches five_patches 2 2)).
Proof.
  cbv zeta. split; [vm_compute; reflexivity|]. split; [vm_compute; reflexivity|].
  destruct (batches_never_none double_each quantize_z five_patches 2 false 2
              ltac:(vm_compute; reflexivity) sched_three_batches _
              ltac:(vm_compute; reflexivity))
    as (H & _).
  destruct (H 3%nat None ltac:(vm_compute; reflexivity)) as (_ & H1).
  exact H1.
Defined.

(** * Further properties of the pipeline *)

Lemma windows_prefix {A : Type} (f : nat -> list A) (a c : nat)
      (xs zs : list (list A)) :
  map f (seq a c) = xs ++ zs -> xs = map f (seq a (length xs)).
Proof.
  revert a c. induction xs as [|x xs IH]; intros a c E; [reflexivity|].
  destruct c as [|c]; [discriminate|].
  cbn in E. injection E as <- E. cbn. f_equal. eapply IH. exact E.
Qed.

Lemma window_bounds {A : Type} (items : list A) (b : Z) (k : nat) :
  1 <= b ->
  (k < Z.to_nat (ceil_div (Z.of_nat (length items)) b))%nat ->
  1 <= Z.of_nat (length (firstn (Z.to_nat b) (skipn (k * Z.to_nat b) items)))
    <= b.
Proof.
  intros Hb Hk. rewrite window_length.
  pose proof (ceil_div_bounds (Z.of_nat (length items)) b ltac:(lia)) as C.
  nia.
Qed.

(** X4.  An input of at least one patch that fits in one batch, the
    batch size being below 2^53, is put whole, as the only batch. *)
Theorem one_batch_when_it_fits :
  forall (A : Type) (items : list A) (batch_size : Z),
    items <> [] ->
    Z.of_nat (length items) <= batch_size < 2 ^ 53 ->
    split_batches items batch_size = Returned [items].
Proof.
  intros A items b Hne Hle.
  assert (Hn : 1 <= Z.of_nat (length items))
    by (destruct items; [contradiction|cbn; lia]).
  assert (Hc : ceil_div (Z.of_nat (length items)) b = 1)
    by (apply ceil_div_unique; lia).
  unfold split_batches. rewrite loop_num_ceil by lia. f_equal.
  rewrite loop_batches_windows by lia. rewrite Hc.
  change (Z.to_nat 1) with 1%nat. cbn [seq map Nat.mul skipn].
  f_equal. apply firstn_all2. lia.
Qed.

Section Further.

Context {Item Feat : Type}.
Variable infer : list Item -> option (ndarray Feat).
Variable quantize : Feat -> Feat.
Variable all_patches : list Item.
Variable batch_size : Z.
Variable qtz : bool.

Local Abbreviation runs_to := (run infer quantize all_patches batch_size qtz).
Local Abbreviation call := (extract_deep_features infer quantize all_patches batch_size qtz).
Local Abbreviation batches := (loop_batches all_patches batch_size).
Local Abbreviation num_patch := (Z.of_nat (length all_patches)).
Local Abbreviation state := (@state Item Feat).
Local Abbreviation window :=
  (fun k : nat => firstn (Z.to_nat batch_size)
                         (skipn (k * Z.to_nat batch_size) all_patches)).

Lemma stream_prefix (xs ys : list (list Item)) (u : list (@qelem Item)) :
  map Some xs ++ u = sentinel_stream ys -> exists zs, ys = xs ++ zs.
Proof.
  unfold sentinel_stream. revert ys.
  induction xs as [|x xs IH]; intros ys E; [exists ys; reflexivity|].
  destruct ys as [|y ys]; cbn in E; [discriminate|].
  inversion E as [[Hx E']]. destruct (IH ys E') as (zs & ->).
  exists zs. reflexivity.
Qed.

Lemma worker_inv_runs (w : worker_pc) (s : state) :
  worker_inv infer w s -> exists t, gets s = map Some (runs s) ++ t.
Proof.
  intros (cons & _ & _ & H). destruct w as [|x| |].
  - destruct H as [-> ->]. exists []. now rewrite app_nil_r.
  - destruct H as [-> ->]. eauto.
  - destruct H as [-> ->]. eauto.
  - destruct H as (b & _ & -> & ->). exists [].
    now rewrite app_nil_r, map_app.
Qed.

(** What has gone through [sess.run] is an initial run of the batches. *)
Lemma runs_prefix (ln : Z) (sched : list thread) (s : state) :
  loop_num num_patch batch_size = Returned ln ->
  runs_to sched init = Some s ->
  exists zs, batches ln = runs s ++ zs.
Proof.
  intros E Hr. pose proof (inv_reachable _ _ _ _ _ _ _ Hr) as Hi.
  destruct (inv_live_or_fresh _ _ _ _ _ ln s E Hi)
    as [(_ & _ & _ & _ & -> & _) | H]; [exists (batches ln); reflexivity|].
  destruct H as (w & qs & _ & _ & Hpg & Hm & Hwi).
  assert (Hp : exists rest, puts s ++ rest = sentinel_stream (batches ln)).
  { unfold main_inv in Hm.
    destruct (main s) as [|ln0|ln0 todo| | |o]; try contradiction.
    - destruct Hm as (-> & done & Hrg & Hp).
      exists (map Some (map (loop_slice all_patches batch_size ln) todo)
              ++ [None]).
      unfold sentinel_stream, loop_batches.
      now rewrite Hp, Hrg, !map_app, <- app_assoc.
    - exists []. now rewrite app_nil_r.
    - exists []. rewrite app_nil_r. tauto.
    - exists []. rewrite app_nil_r. tauto. }
  destruct Hp as (rest & Hp).
  destruct (worker_inv_runs w s Hwi) as (t & Hg).
  rewrite Hpg, Hg, <- !app_assoc in Hp.
  eapply stream_prefix. exact Hp.
Qed.

Lemma runs_windows (sched : list thread) (s : state) :
  1 <= batch_size < 2 ^ 53 -> num_patch < 2 ^ 53 ->
  runs_to sched init = Some s ->
  runs s = map window (seq 0 (length (runs s))) /\
  (length (runs s) <= Z.to_nat (ceil_div num_patch batch_size))%nat.
Proof.
  intros Hb Hlt Hr.
  destruct (runs_prefix (ceil_div num_patch batch_size - 1) sched s
                        ltac:(apply loop_num_ceil; lia) Hr) as (zs & E).
  rewrite loop_batches_windows in E by lia.
  split.
  - eapply windows_prefix. exact E.
  - apply (f_equal (@length _)) in E.
    rewrite length_map, length_seq, length_app in E. lia.
Qed.

(** X5.  With a positive batch_size and sizes below 2^53, whatever the
    interleaving and whether or not inference fails, every batch handed
    to [sess.run] has at least one patch and at most batch_size
    patches. *)
Theorem inference_batches_bounded :
  1 <= batch_size < 2 ^ 53 -> num_patch < 2 ^ 53 ->
  forall sched s,
    runs_to sched init = Some s ->
    Forall (fun b => 1 <= Z.of_nat (length b) <= batch_size) (runs s).
Proof.
  intros Hb Hlt sched s Hr.
  destruct (runs_windows sched s Hb Hlt Hr) as [E Hlen].
  rewrite E. apply Forall_forall. intros b Hin.
  apply in_map_iff in Hin. destruct Hin as (k & <- & Hk).
  apply in_seq in Hk. apply window_bounds; lia.
Qed.

(** X7.  With a positive batch_size and sizes below 2^53, at every
    point of every run the patches handed to [sess.run] so far are, in
    order and each once, the first [k * batch_size] patches of the input
    ([k] the number of calls, the count clipped at the end of the input);
    when the call is over and inference never failed they are exactly the
    input. *)
Theorem patches_fed_once_in_order :
  1 <= batch_size < 2 ^ 53 -> num_patch < 2 ^ 53 ->
  forall sched s,
    runs_to sched init = Some s ->
    concat (runs s)
    = firstn (length (runs s) * Z.to_nat batch_size) all_patches /\
    (is_done s = true ->
     all_succeed infer (batches (ceil_div num_patch batch_size - 1)) = true ->
     concat (runs s) = all_patches).
Proof.
  intros Hb Hlt sched s Hr.
  destruct (runs_windows sched s Hb Hlt Hr) as [E Hlen].
  split.
  - rewrite E at 1. apply concat_windows.
  - intros Hd Hall.
    pose proof (inv_reachable _ _ _ _ _ _ _ Hr) as Hi.
    assert (El : loop_num num_patch batch_size
                 = Returned (ceil_div num_patch batch_size - 1))
      by (apply loop_num_ceil; lia).
    destruct (done_live _ _ _ _ _ _ s El Hi Hd) as [_ [Hw | Hx]].
    + destruct Hw as (_ & _ & _ & _ & _ & -> & _).
      apply loop_batches_concat. lia.
    + destruct Hx as (cons & b & rest & Hbs & _ & Hnone & _).
      rewrite Hbs, all_succeed_stop in Hall by assumption. discriminate.
Qed.

(** X1.  The final state does not depend on the interleaving: two runs
    of the same call that are both over end in the same state (same
    outcome, same accumulator, same histories, same queue). *)
Theorem final_state_unique :
  forall sched1 sched2 s1 s2,
    runs_to sched1 init = Some s1 ->
    runs_to sched2 init = Some s2 ->
    is_done s1 = true -> is_done s2 = true ->
    s1 = s2.
Proof.
  intros sched1 sched2 s1 s2 Hr1 Hr2 Hd1 Hd2.
  pose proof (inv_reachable _ _ _ _ _ _ _ Hr1) as Hi1.
  pose proof (inv_reachable _ _ _ _ _ _ _ Hr2) as Hi2.
  destruct (loop_num num_patch batch_size) as [ln|e] eqn:E.
  - destruct (done_live _ _ _ _ _ ln s1 E Hi1 Hd1) as [Ho1 H1].
    destruct (done_live _ _ _ _ _ ln s2 E Hi2 Hd2) as [Ho2 H2].
    assert (Hall : all_feat s1 = all_feat s2 /\
                   patch_queue s1 = patch_queue s2 /\
                   worker_thread s1 = worker_thread s2 /\
                   puts s1 = puts s2 /\ gets s1 = gets s2 /\
                   runs s1 = runs s2).
    { destruct H1 as [W1 | D1], H2 as [W2 | D2].
      - destruct W1 as (_ & ? & ? & ? & ? & ? & ?).
        destruct W2 as (_ & ? & ? & ? & ? & ? & ?).
        split_and; congruence.
      - exfalso. destruct W1 as (Hall & _).
        destruct D2 as (c & b & r & Hbs & _ & Hb & _).
        rewrite Hbs, all_succeed_stop in Hall by assumption. discriminate.
      - exfalso. destruct W2 as (Hall & _).
        destruct D1 as (c & b & r & Hbs & _ & Hb & _).
        rewrite Hbs, all_succeed_stop in Hall by assumption. discriminate.
      - destruct D1 as (c1 & b1 & r1 & Hb1 & Hok1 & Hn1 & Hq1 & Hw1 & Hp1
                        & Hg1 & Hru1 & Hf1).
        destruct D2 as (c2 & b2 & r2 & Hb2 & Hok2 & Hn2 & Hq2 & Hw2 & Hp2
                        & Hg2 & Hru2 & Hf2).
        assert (Hc : c1 ++ [b1] = c2 ++ [b2]).
        { rewrite <- (consumed_stop infer c1 r1 b1 Hok1 Hn1), <- Hb1.
          rewrite Hb2. now apply consumed_stop. }
        apply app_inj_tail in Hc. destruct Hc as [-> ->].
        rewrite Hb1 in Hb2. apply app_inv_head in Hb2.
        injection Hb2 as ->.
        split_and; congruence. }
    destruct Hall as (Ha & Hq & Hw & Hp & Hg & Hru).
    destruct s1 as [m1 q1 w1 a1 p1 g1 r1], s2 as [m2 q2 w2 a2 p2 g2 r2].
    cbn in *. subst.
    destruct m1; try discriminate. destruct m2; try discriminate.
    cbn in Ho1, Ho2. congruence.
  - destruct (done_early _ _ _ _ _ e s1 E Hi1) as [-> | ->];
      [discriminate|].
    destruct (done_early _ _ _ _ _ e s2 E Hi2) as [-> | ->];
      [discriminate|reflexivity].
Qed.

Lemma feats_lengths (d : list Z) (bs : list (list Item)) :
  (forall b, exists r, infer b = Some (Array d r) /\ length r = length b) ->
  exists rs,
    feats_before_failure infer bs = map (Array d) rs /\
    length (concat rs) = length (concat bs) /\
    length rs = length bs.
Proof.
  intros H. induction bs as [|b bs (rs & IH1 & IH2 & IH3)].
  - exists []. auto.
  - destruct (H b) as (r & Hr & Hl).
    exists (r :: rs). cbn [feats_before_failure]. rewrite Hr, IH1.
    cbn [concat length map]. rewrite !length_app, IH2, IH3, Hl. auto.
Qed.

(** X3.  With at least one patch, a positive batch_size, sizes below
    2^53, and an inference that succeeds and gives, in arrays with rows of
    one shape, as many rows as its batch has, the call returns, under
    every interleaving, an array with one row per patch. *)
Theorem result_has_one_row_per_patch (d : list Z) :
  all_patches <> [] -> 1 <= batch_size < 2 ^ 53 -> num_patch < 2 ^ 53 ->
  (forall b, exists r, infer b = Some (Array d r) /\ length r = length b) ->
  exists r,
    call = Some (Returned (Array d r)) /\
    length r = length all_patches /\
    forall sched s,
      runs_to sched init = Some s -> is_done s = true ->
      outcome s = Some (Returned (Array d r)).
Proof.
  intros Hne Hb Hlt Hinf.
  set (bs := batches (ceil_div num_patch batch_size - 1)).
  destruct (feats_lengths d bs Hinf) as (rs & Hf & Hl & Hn).
  pose proof (loop_batches_nonempty all_patches batch_size
                ltac:(lia) Hne) as Hbs.
  pose proof (loop_batches_concat all_patches batch_size ltac:(lia)) as Hc.
  fold bs in Hbs, Hc.
  assert (E : pipeline_outcome infer quantize all_patches batch_size qtz
              = Returned (Array d (if qtz then map quantize (concat rs)
                                   else concat rs))).
  { unfold pipeline_outcome. rewrite loop_num_ceil by lia. fold bs.
    rewrite Hf. apply finish_uniform.
    intros ->. apply Hbs. now apply length_zero_iff_nil. }
  eexists. split_and.
  - rewrite extract_deep_features_outcome, E. reflexivity.
  - rewrite <- Hc, <- Hl. destruct qtz; [apply length_map|reflexivity].
  - intros sched s Hr Hd. rewrite <- E. eapply run_outcome; eassumption.
Qed.

(** X6.  The accumulator is read only once the worker has ended: in
    every reachable state in which the caller stands at or after the
    concatenation of line 100, the worker can take no step, and
    [all_feat] is the same in every state that follows. *)
Theorem accumulator_read_after_worker_ends :
  forall sched s,
    runs_to sched init = Some s ->
    main s = MConcat \/ is_done s = true ->
    worker_step infer s = None /\
    forall sched' s',
      runs_to sched' s = Some s' -> all_feat s' = all_feat s.
Proof.
  intros sched s Hr Hm.
  pose proof (inv_reachable _ _ _ _ _ _ _ Hr) as Hi.
  assert (Hstuck : forall s0 : state,
             Inv infer quantize all_patches batch_size qtz s0 ->
             main s0 = MConcat \/ is_done s0 = true ->
             worker_step infer s0 = None).
  { clear. intros s0 Hi0 Hm0. unfold Inv in Hi0.
    destruct (loop_num num_patch batch_size) as [ln|e].
    - destruct Hi0 as [-> | [-> | Hl]];
        [destruct Hm0; discriminate|destruct Hm0; discriminate|].
      destruct Hl as (w & qs & _ & Hw & _ & Hmi & _).
      unfold main_inv in Hmi. unfold worker_step. rewrite Hw.
      destruct Hm0 as [Hm0 | Hm0].
      + rewrite Hm0 in Hmi. destruct Hmi as (_ & [-> | ->]); reflexivity.
      + unfold is_done in Hm0.
        destruct (main s0); try discriminate.
        destruct Hmi as (_ & [-> | ->] & _); reflexivity.
    - destruct Hi0 as [-> | ->]; reflexivity. }
  split; [now apply Hstuck|].
  clear Hr. intros sched'. revert s Hm Hi.
  induction sched' as [|t sched' IH]; intros s Hm Hi s' Hr'.
  - cbn in Hr'. now injection Hr' as <-.
  - cbn in Hr'.
    destruct (thread_step infer quantize all_patches batch_size qtz t s)
      as [s1|] eqn:Es; [|discriminate].
    assert (Hi1 : Inv infer quantize all_patches batch_size qtz s1)
      by (eapply inv_step; eassumption).
    destruct t; cbn in Es.
    + assert (H1 : all_feat s1 = all_feat s /\
                   (main s1 = MConcat \/ is_done s1 = true)).
      { unfold main_step in Es. destruct Hm as [Hm | Hm].
        - rewrite Hm in Es. injection Es as <-. cbn. auto.
        - unfold is_done in Hm. destruct (main s); discriminate. }
      destruct H1 as [Ha Hm1]. rewrite <- Ha.
      now apply (IH s1).
    + rewrite (Hstuck s Hi Hm) in Es. discriminate.
Qed.

(** X11.  The queue never holds more than every batch and the Sentinel:
    at every point of every run past line 66 its length is at most the
    number of loop iterations plus one. *)
Theorem queue_length_bounded (ln : Z) :
  loop_num num_patch batch_size = Returned ln ->
  forall sched s q,
    runs_to sched init = Some s ->
    patch_queue s = Some q ->
    (length (contents q) <= S (Z.to_nat (ln + 1)))%nat.
Proof.
  intros E sched s q Hr Hq.
  pose proof (inv_reachable _ _ _ _ _ _ _ Hr) as Hi.
  destruct (inv_live_or_fresh _ _ _ _ _ ln s E Hi)
    as [(Hn & _) | H]; [congruence|].
  apply live_histories in H.
  destruct H as ((rest & Hp) & (qs & Hq' & Hpg) & _).
  rewrite Hq in Hq'. injection Hq' as ->. cbn.
  apply (f_equal (@length _)) in Hp.
  unfold sentinel_stream in Hp.
  rewrite Hpg, !length_app, length_map, loop_batches_length in Hp.
  cbn in Hp. lia.
Qed.

Lemma first_batch_is_head :
  1 <= batch_size -> all_patches <> [] ->
  exists rest,
    batches (ceil_div num_patch batch_size - 1)
    = firstn (Z.to_nat batch_size) all_patches :: rest.
Proof.
  intros Hb Hne. rewrite loop_batches_windows by assumption.
  assert (Hn : 1 <= num_patch)
    by (destruct all_patches; [contradiction|cbn; lia]).
  pose proof (ceil_div_bounds num_patch batch_size ltac:(lia)) as C.
  destruct (Z.to_nat (ceil_div num_patch batch_size)) as [|c] eqn:Ec; [nia|].
  cbn [seq map Nat.mul skipn]. eauto.
Qed.

(** X8.  When the call raises and when it can return.  With
    batch_size = 0 it raises ZeroDivisionError.  With a negative
    batch_size (on fewer than 2^63 patches) it raises the ValueError of
    line 100.  With a positive batch_size and sizes below 2^53 it raises
    nothing but the ValueError of line 100; it raises it on an empty
    input and when [sess.run] raises on the first batch (the first
    batch_size patches, or all of them if fewer), so that an array is
    returned only if there is at least one patch and [sess.run] succeeds
    on the first batch. *)
Theorem call_outcome_cases :
  let first := firstn (Z.to_nat batch_size) all_patches in
  let result := extract_deep_features infer quantize all_patches
                                      batch_size qtz in
  (batch_size = 0 -> result = Some (Raised ZeroDivisionError)) /\
  (batch_size < 0 -> num_patch < 2 ^ 63 ->
   result = Some (Raised ValueError)) /\
  (1 <= batch_size < 2 ^ 53 -> num_patch < 2 ^ 53 ->
   ((exists r, result = Some (Returned r)) \/
    result = Some (Raised ValueError)) /\
   (all_patches = [] \/ infer first = None ->
    result = Some (Raised ValueError)) /\
   ((exists r, result = Some (Returned r)) ->
    all_patches <> [] /\ infer first <> None)).
Proof.
  intros first result. subst result.
  rewrite extract_deep_features_outcome. unfold pipeline_outcome.
  split_and.
  - intros ->. now rewrite loop_num_zero.
  - intros Hneg Hlt.
    destruct (loop_num_negative num_patch batch_size ltac:(lia) Hneg)
      as (ln & -> & Hln).
    now rewrite loop_batches_nonpositive.
  - intros Hb Hlt. rewrite loop_num_ceil by lia.
    assert (Hbad : all_patches = [] \/ infer first = None ->
                   finish quantize qtz
                     (feats_before_failure infer
                        (batches (ceil_div num_patch batch_size - 1)))
                   = Raised ValueError).
    { intros [Hnil | Hnone].
      - assert (Hz : num_patch = 0) by now rewrite Hnil.
        assert (Hc : ceil_div num_patch batch_size = 0)
          by (apply ceil_div_unique; lia).
        now rewrite Hc, loop_batches_nonpositive.
      - destruct (Nat.eq_dec (length all_patches) 0) as [Hz | Hnz].
        + assert (Hc : ceil_div num_patch batch_size = 0)
            by (apply ceil_div_unique; lia).
          now rewrite Hc, loop_batches_nonpositive.
        + assert (Hne : all_patches <> [])
            by (intros Hnil; apply Hnz; now rewrite Hnil).
          destruct first_batch_is_head as (rest & ->); [lia|assumption|].
          cbn [feats_before_failure]. fold first. now rewrite Hnone. }
    split_and.
    + destruct (finish quantize qtz _) as [r|e] eqn:Ef; [eauto|].
      right. apply finish_raises in Ef. now subst.
    + intros H. now rewrite Hbad.
    + intros (r & Hr). split.
      * intros Hnil. rewrite Hbad in Hr by auto. discriminate.
      * intros Hnone. rewrite Hbad in Hr by auto. discriminate.
Qed.

(** X9.  With sizes below 2^53, when [sess.run] gives one feature per
    patch, in arrays with rows of one shape, on the batches before the
    one it raises on, and there is at least one such batch, the call
    returns the features of the first [k * batch_size] patches, [k] being
    the number of batches before the failing one: a prefix of the full
    result. *)
Theorem truncated_result_is_prefix
        (d : list Z) (f : Item -> Feat) (cons rest : list (list Item))
        (b : list Item) :
  1 <= batch_size < 2 ^ 53 -> num_patch < 2 ^ 53 ->
  batches (ceil_div num_patch batch_size - 1) = cons ++ b :: rest ->
  cons <> [] ->
  (forall c, In c cons -> infer c = Some (Array d (map f c))) ->
  infer b = None ->
  let post := fun x => if qtz then quantize x else x in
  let r := map post (map f (firstn (length cons * Z.to_nat batch_size)
                                   all_patches)) in
  call = Some (Returned (Array d r)) /\
  forall sched s,
    runs_to sched init = Some s -> is_done s = true ->
    outcome s = Some (Returned (Array d r)).
Proof.
  intros Hb Hlt Hbs Hne Hf Hnone post r.
  destruct (feats_itemwise infer d f cons Hf) as [Ef Hok].
  assert (Hc : concat cons
               = firstn (length cons * Z.to_nat batch_size) all_patches).
  { rewrite loop_batches_windows in Hbs by lia.
    rewrite (windows_prefix _ _ _ _ _ Hbs) at 1. apply concat_windows. }
  assert (E : pipeline_outcome infer quantize all_patches batch_size qtz
              = Returned (Array d r)).
  { unfold pipeline_outcome. rewrite loop_num_ceil by lia.
    rewrite Hbs, feats_stop, Ef by assumption.
    rewrite finish_uniform by (destruct cons; [contradiction|discriminate]).
    rewrite <- concat_map, Hc. subst r post.
    destruct qtz; [reflexivity|]. now rewrite map_id. }
  split.
  - now rewrite extract_deep_features_outcome, E.
  - intros sched s Hr Hd. rewrite <- E. eapply run_outcome; eassumption.
Qed.

(** X10.  The [qtz] flag only post-processes: the call with [qtz] set
    raises exactly when the call without it raises, with the same
    exception, and otherwise returns the unquantized result with each of
    its rows quantized and its shape kept. *)
Theorem quantization_is_postprocessing :
  extract_deep_features infer quantize all_patches batch_size true
  = match extract_deep_features infer quantize all_patches batch_size false with
    | Some (Returned r) => Some (Returned (quantize_array quantize r))
    | other => other
    end.
Proof.
  rewrite !extract_deep_features_outcome. unfold pipeline_outcome.
  destruct (loop_num num_patch batch_size) as [ln|e]; [|reflexivity].
  unfold finish.
  destruct (np_concatenate (feats_before_failure infer (batches ln)));
    reflexivity.
Qed.

(** X13.  At every point of every run the accumulator holds exactly
    the outputs of the [sess.run] calls made so far that succeeded, in the
    order of the calls. *)
Theorem accumulator_matches_calls :
  forall sched s,
    runs_to sched init = Some s ->
    all_feat s = feats_before_failure infer (runs s) /\
    (length (all_feat s) <= length (runs s) <= S (length (all_feat s)))%nat.
Proof.
  intros sched s Hr. pose proof (inv_reachable _ _ _ _ _ _ _ Hr) as Hi.
  assert (H : exists cons t,
             all_succeed infer cons = true /\
             all_feat s = feats_before_failure infer cons /\
             runs s = cons ++ t /\
             (t = [] \/ exists b, t = [b] /\ infer b = None)).
  { unfold Inv in Hi.
    destruct (loop_num num_patch batch_size) as [ln|e].
    - destruct Hi as [-> | [-> | Hl]].
      + exists [], []. cbn. auto.
      + exists [], []. cbn. auto.
      + destruct Hl as (w & qs & _ & _ & _ & _ & cons & Hok & Hf & Hw).
        exists cons. destruct w as [|x| |].
        * exists []. rewrite app_nil_r. tauto.
        * exists []. rewrite app_nil_r. tauto.
        * exists []. rewrite app_nil_r. tauto.
        * destruct Hw as (b & Hb & _ & Hru). exists [b]. eauto 10.
    - destruct Hi as [-> | ->]; exists [], []; cbn; auto. }
  destruct H as (cons & t & Hok & Hf & Hru & Ht).
  pose proof (feats_length infer cons Hok) as Hlen.
  rewrite Hf, Hru, Hlen, length_app.
  destruct Ht as [-> | (b & -> & Hb)].
  - rewrite app_nil_r. split; [reflexivity|cbn; lia].
  - rewrite feats_stop by assumption. split; [reflexivity|cbn; lia].
Qed.

Lemma step_grows (t : thread) (s s' : state) :
  Inv infer quantize all_patches batch_size qtz s ->
  thread_step infer quantize all_patches batch_size qtz t s = Some s' ->
  (exists a, all_feat s' = all_feat s ++ a) /\
  (exists p, puts s' = puts s ++ p) /\
  (exists g, gets s' = gets s ++ g) /\
  (exists r, runs s' = runs s ++ r).
Proof.
  intros Hi Hs.
  assert (Hsame : forall {A : Type} (l : list A), exists a, l = l ++ a)
    by (intros A l; exists []; now rewrite app_nil_r).
  destruct s as [m q wt af p g r]. destruct t; cbn in Hs.
  - unfold main_step in Hs. cbn in Hs.
    destruct m as [|ln|ln [|i todo]| | |o].
    + destruct (loop_num num_patch batch_size);
        injection Hs as <-; cbn; auto.
    + assert (af = []).
      { unfold Inv in Hi.
        destruct (loop_num num_patch batch_size) as [ln0|e].
        - destruct Hi as [Hi | [Hi | Hl]]; try (now inversion Hi).
          destruct Hl as (w & qs & _ & _ & _ & Hmi & _).
          unfold main_inv in Hmi. cbn in Hmi. contradiction.
        - destruct Hi as [Hi | Hi]; now inversion Hi. }
      subst af. injection Hs as <-. cbn. split_and; eauto.
    + unfold main_put in Hs. cbn in Hs. destruct q as [q|]; [|discriminate].
      destruct (put q None); [|discriminate].
      injection Hs as <-. cbn. split_and; eauto.
    + unfold main_put in Hs. cbn in Hs. destruct q as [q|]; [|discriminate].
      destruct (put q _); [|discriminate].
      injection Hs as <-. cbn. split_and; eauto.
    + destruct wt as [[| | |]|]; try discriminate;
        injection Hs as <-; cbn; auto.
    + injection Hs as <-. cbn. auto.
    + discriminate.
  - unfold worker_step in Hs. cbn in Hs.
    destruct wt as [[|[b|]| |]|]; try discriminate.
    + destruct q as [q|]; [|discriminate].
      destruct (get q) as [[x q']|]; [|discriminate].
      injection Hs as <-. cbn. split_and; eauto.
    + destruct (infer b); injection Hs as <-; cbn; split_and; eauto.
    + injection Hs as <-. cbn. auto.
Qed.

(** X12.  Nothing is ever taken back: along every run the accumulator
    and the three histories (elements put, elements got, batches handed
    to [sess.run]) only grow at their end; what a state holds is kept, in
    place and in order, by every later state. *)
Theorem accumulator_and_histories_grow :
  forall sched s sched' s',
    runs_to sched init = Some s ->
    runs_to sched' s = Some s' ->
    (exists a, all_feat s' = all_feat s ++ a) /\
    (exists p, puts s' = puts s ++ p) /\
    (exists g, gets s' = gets s ++ g) /\
    (exists r, runs s' = runs s ++ r).
Proof.
  intros sched s sched' s' Hr Hr'.
  pose proof (inv_reachable _ _ _ _ _ _ _ Hr) as Hi. clear Hr.
  revert s Hi Hr'. induction sched' as [|t sched' IH]; intros s Hi Hr'.
  - cbn in Hr'. injection Hr' as <-.
    split_and; exists []; now rewrite app_nil_r.
  - cbn in Hr'.
    destruct (thread_step infer quantize all_patches batch_size qtz t s)
      as [s1|] eqn:Es; [|discriminate].
    destruct (step_grows t s s1 Hi Es)
      as ((a1 & Ha1) & (p1 & Hp1) & (g1 & Hg1) & (r1 & Hr1)).
    destruct (IH s1 (inv_step _ _ _ _ _ t s s1 Hi Es) Hr')
      as ((a2 & Ha2) & (p2 & Hp2) & (g2 & Hg2) & (r2 & Hr2)).
    rewrite Ha2, Hp2, Hg2, Hr2, Ha1, Hp1, Hg1, Hr1, <- !app_assoc.
    eauto 10.
Qed.

End Further.

(** ** The further properties at concrete inputs *)

Lemma final_state_unique_witness :
  state_after double_each quantize_z five_patches 2 false sched_three_batches
  = state_after double_each quantize_z five_patches 2 false
                sched_producer_first.
Proof.
  apply (final_state_unique double_each quantize_z five_patches 2 false
                            sched_three_batches sched_producer_first);
    vm_compute; reflexivity.
Defined.

Lemma extract_itemwise_nonempty_witness :
  five_patches <> [] /\ 1 <= 2 < 2 ^ 53 /\
  Z.of_nat (length five_patches) < 2 ^ 53 /\
  extract_deep_features double_each quantize_z five_patches 2 false
  = Some (Returned (Array [] (map (fun x => x)
                                  (map (Z.mul 2) five_patches)))).
Proof.
  split; [discriminate|]. split; [lia|]. split; [cbn; lia|].
  apply (extract_itemwise_nonempty double_each quantize_z five_patches 2
                                   false [] (Z.mul 2));
    [discriminate|lia|cbn; lia|reflexivity].
Defined.

Lemma result_has_one_row_per_patch_witness :
  five_patches <> [] /\ 1 <= 2 < 2 ^ 53 /\
  Z.of_nat (length five_patches) < 2 ^ 53 /\
  exists r,
    extract_deep_features double_each quantize_z five_patches 2 true
    = Some (Returned (Array [] r)) /\
    length r = length five_patches.
Proof.
  split; [discriminate|]. split; [lia|]. split; [cbn; lia|].
  destruct (result_has_one_row_per_patch
              double_each quantize_z five_patches 2 true []
              ltac:(discriminate) ltac:(lia) ltac:(cbn; lia)
              ltac:(intros b; eexists; split;
                    [reflexivity|apply length_map]))
    as (r & H1 & H2 & _).
  exists r. auto.
Defined.

Lemma one_batch_when_it_fits_witness :
  five_patches <> [] /\ Z.of_nat (length five_patches) <= 512 < 2 ^ 53 /\
  split_batches five_patches 512 = Returned [five_patches].
Proof.
  split; [discriminate|]. split; [cbn; lia|].
  apply one_batch_when_it_fits; [discriminate|cbn; lia].
Defined.

Lemma inference_batches_bounded_witness :
  1 <= 2 < 2 ^ 53 /\ Z.of_nat (length five_patches) < 2 ^ 53 /\
  Forall (fun b => 1 <= Z.of_nat (length b) <= 2)
         (runs (state_after double_each quantize_z five_patches 2 false
                            sched_three_batches)).
Proof.
  split; [lia|]. split; [cbn; lia|].
  apply (inference_batches_bounded double_each quantize_z five_patches 2
           false ltac:(lia) ltac:(cbn; lia) sched_three_batches).
  vm_compute. reflexivity.
Defined.

Lemma accumulator_read_after_worker_ends_witness :
  let s := state_after double_each quantize_z five_patches 2 false
                       sched_three_batches in
  is_done s = true /\ worker_step double_each s = None.
Proof.
  cbv zeta. split; [vm_compute; reflexivity|].
  apply (accumulator_read_after_worker_ends
           double_each quantize_z five_patches 2 false sched_three_batches);
    [vm_compute; reflexivity|right; vm_compute; reflexivity].
Defined.

Lemma patches_fed_once_in_order_witness :
  let s := state_after double_each quantize_z five_patches 2 false
                       sched_two_puts in
  1 <= 2 < 2 ^ 53 /\ Z.of_nat (length five_patches) < 2 ^ 53 /\
  concat (runs s) = firstn (length (runs s) * Z.to_nat 2) five_patches.
Proof.
  cbv zeta. split; [lia|]. split; [cbn; lia|].
  apply (patches_fed_once_in_order double_each quantize_z five_patches 2
           false ltac:(lia) ltac:(cbn; lia) sched_two_puts).
  vm_compute. reflexivity.
Defined.

Lemma call_outcome_cases_witness :
  1 <= 2 < 2 ^ 53 /\ Z.of_nat (length five_patches) < 2 ^ 53 /\
  fails_on_five (firstn (Z.to_nat 5) five_patches) = None /\
  extract_deep_features fails_on_five quantize_z five_patches 5 false
  = Some (Raised ValueError) /\
  extract_deep_features double_each quantize_z five_patches 0 false
  = Some (Raised ZeroDivisionError).
Proof.
  split; [lia|]. split; [cbn; lia|]. split; [vm_compute; reflexivity|].
  split.
  - destruct (call_outcome_cases fails_on_five quantize_z five_patches 5
                                 false) as (_ & _ & H).
    destruct (H ltac:(lia) ltac:(cbn; lia)) as (_ & H1 & _).
    apply H1. right. vm_compute. reflexivity.
  - destruct (call_outcome_cases double_each quantize_z five_patches 0
                                 false) as (H & _).
    exact (H eq_refl).
Defined.

Lemma truncated_result_is_prefix_witness :
  1 <= 2 < 2 ^ 53 /\ Z.of_nat (length five_patches) < 2 ^ 53 /\
  fails_on_five [5] = None /\
  extract_deep_features fails_on_five quantize_z five_patches 2 false
  = Some (Returned (Array [] (map (fun x => x)
                        (map (Z.mul 2)
                             (firstn (2 * Z.to_nat 2) five_patches))))).
Proof.
  split; [lia|]. split; [cbn; lia|]. split; [reflexivity|].
  apply (truncated_result_is_prefix
           fails_on_five quantize_z five_patches 2 false
           [] (Z.mul 2) [[1; 2]; [3; 4]] [] [5]).
  - lia.
  - cbn; lia.
  - vm_compute. reflexivity.
  - discriminate.
  - intros c [<- | [<- | []]]; reflexivity.
  - reflexivity.
Defined.

Lemma queue_length_bounded_witness :
  let s := state_after double_each quantize_z five_patches 2 false
                       sched_two_puts in
  loop_num 5 2 = Returned 2 /\
  patch_queue s
  = Some {| maxsize := 0; contents := [Some [1; 2]; Some [3; 4]] |} /\
  (length [Some [1; 2]; Some [3; 4]] <= S (Z.to_nat (2 + 1)))%nat.
Proof.
  cbv zeta. split; [vm_compute; reflexivity|].
  split; [vm_compute; reflexivity|].
  apply (queue_length_bounded double_each quantize_z five_patches 2 false 2
           ltac:(vm_compute; reflexivity) sched_two_puts
           (state_after double_each quantize_z five_patches 2 false
                        sched_two_puts)
           {| maxsize := 0; contents := [Some [1; 2]; Some [3; 4]] |});
    vm_compute; reflexivity.
Defined.

Lemma accumulator_and_histories_grow_witness :
  let s := state_after double_each quantize_z five_patches 2 false
                       sched_two_puts in
  let s' := state_after double_each quantize_z five_patches 2 false
                        sched_producer_first in
  run double_each quantize_z five_patches 2 false sched_two_puts init
  = Some s /\
  (exists p, puts s' = puts s ++ p) /\
  (exists a, all_feat s' = all_feat s ++ a).
Proof.
  cbv zeta. split; [vm_compute; reflexivity|].
  destruct (accumulator_and_histories_grow
              double_each quantize_z five_patches 2 false
              sched_two_puts
              (state_after double_each quantize_z five_patches 2 false
                           sched_two_puts)
              [Main; Main;
               Worker; Worker; Worker; Worker; Worker; Worker; Worker; Worker;
               Main; Main]
              (state_after double_each quantize_z five_patches 2 false
                           sched_producer_first)
              ltac:(vm_compute; reflexivity) ltac:(vm_compute; reflexivity))
    as (Ha & Hp & _).
  split; assumption.
Defined.

Lemma accumulator_matches_calls_witness :
  let s := state_after fails_on_five quantize_z five_patches 2 false
                       sched_third_fails in
  run fails_on_five quantize_z five_patches 2 false sched_third_fails init
  = Some s /\
  all_feat s = feats_before_failure fails_on_five (runs s).
Proof.
  cbv zeta. split; [vm_compute; reflexivity|].
  apply (accumulator_matches_calls fails_on_five quantize_z five_patches 2
                                   false sched_third_fails).
  vm_compute. reflexivity.
Defined.
